(** * Rolling-upgrade procedures of the OAE fabfile

    A shallow embedding of [fabfile/cluster/db/__init__.py] and
    [fabfile/cluster/search/__init__.py].  The procedures are written in a
    small state-and-exception monad over the Fabric environment ([env]) and a
    log recording what a test double of the remote executor and of the
    operation catalogue would see. *)

From Stdlib Require Import List String Bool Arith Lia.
Import ListNotations.
Open Scope string_scope.
Open Scope list_scope.

Set Implicit Arguments.

(** ** Data model *)

Definition Host := string.

(** The operation catalogue: the leaf tasks of the modules [puppet], [db],
    [search], [apt] and [hilary], with the keyword arguments the procedures
    pass to them. *)
Inductive Op : Type :=
| puppet_stop (force : bool)
| puppet_git_update
| puppet_run (force : bool)
| puppet_start
| db_drain
| db_stop
| db_start
| db_wait_until_ready
| db_upgradesstables
| search_delete_index (index_name : string)
| search_uninstall
| apt_update
| search_stop
| search_start
| hilary_stop
| hilary_start
| hilary_wait_until_ready.

(** What is handed to [execute]: a catalogue task, or the local function
    [upgrade_host_internal] of the db module. *)
Inductive TaskName : Type :=
| Catalog (op : Op)
| UpgradeHostInternal.

(** The part of Fabric's [env] the procedures read or override. *)
Record Env : Type := mkEnv {
  env_hosts : list Host;
  env_parallel : bool;
  env_host_string : option Host;
  env_password : option string;
  env_search_index_name : option string
}.

Inductive Event : Type :=
| ECredential (prompted : bool)
| EExecute (hs : list Host) (par : bool) (t : TaskName)
| ECall (h : option Host) (op : Op) (ok : bool).

Record World : Type := mkWorld {
  env : Env;
  log : list Event
}.

Inductive Failure : Type :=
| CredentialError
| IndexError
| LeafFailure (h : option Host) (op : Op)
| ParallelFailure (t : TaskName) (failed : list Host).

Inductive Result (A : Type) : Type :=
| Done (a : A) (w : World)
| Raised (e : Failure) (w : World).

Arguments Raised {A} e w.

Definition M (A : Type) : Type := World -> Result A.

Definition world_of {A} (r : Result A) : World :=
  match r with
  | Done _ w => w
  | Raised _ w => w
  end.

Definition completed {A} (r : Result A) : bool :=
  match r with
  | Done _ _ => true
  | Raised _ _ => false
  end.

Definition ret {A} (a : A) : M A := fun w => Done a w.

Definition bind {A B} (m : M A) (k : A -> M B) : M B :=
  fun w =>
    match m w with
    | Done a w' => k a w'
    | Raised e w' => Raised e w'
    end.

Definition raise {A} (e : Failure) : M A := fun w => Raised e w.

Notation "x <- m ;; k" := (bind m (fun x => k))
  (at level 61, m at next level, right associativity).
Notation "m ;; k" := (bind m (fun _ => k))
  (at level 61, right associativity).

(** Python's [if flag: body]. *)
Definition when (flag : bool) (body : M unit) : M unit :=
  if flag then body else ret tt.

(** Python's [xs[0]]. *)
Definition index0 (xs : list Host) : M Host :=
  match xs with
  | [] => raise IndexError
  | x :: _ => ret x
  end.

Definition emit (evs : list Event) (w : World) : World :=
  {| env := env w; log := log w ++ evs |}.

Definition set_hosts (hs : list Host) (e : Env) : Env :=
  {| env_hosts := hs;
     env_parallel := env_parallel e;
     env_host_string := env_host_string e;
     env_password := env_password e;
     env_search_index_name := env_search_index_name e |}.

Definition set_parallel (p : bool) (e : Env) : Env :=
  {| env_hosts := env_hosts e;
     env_parallel := p;
     env_host_string := env_host_string e;
     env_password := env_password e;
     env_search_index_name := env_search_index_name e |}.

Definition set_host_string (h : option Host) (e : Env) : Env :=
  {| env_hosts := env_hosts e;
     env_parallel := env_parallel e;
     env_host_string := h;
     env_password := env_password e;
     env_search_index_name := env_search_index_name e |}.

Definition set_password (p : option string) (e : Env) : Env :=
  {| env_hosts := env_hosts e;
     env_parallel := env_parallel e;
     env_host_string := env_host_string e;
     env_password := p;
     env_search_index_name := env_search_index_name e |}.

Definition with_env (f : Env -> Env) (w : World) : World :=
  {| env := f (env w); log := log w |}.

(** ** External collaborators

    The host-group resolver ([cluster.hosts]), the operator at the password
    prompt and the outcome of every leaf operation are inputs of the model.
    The outcome of a leaf operation may depend on everything that happened
    before it, on the host it runs on and on the operation. *)
Record Collaborators : Type := mkCollaborators {
  cluster_hosts_db : list Host;
  cluster_hosts_search : list Host;
  cluster_hosts_app : list Host;
  cluster_hosts_puppet : Host;
  operator_secret : option string;
  leaf_ok : list Event -> option Host -> Op -> bool
}.

Record Callable : Type := mkCallable {
  task_name : TaskName;
  task_run : M unit
}.

Section Engine.

Variable X : Collaborators.

(** A leaf operation of the catalogue runs against the current
    [env.host_string]; a failure aborts (Fabric's [abort]). *)
Definition call (op : Op) : M unit :=
  fun w =>
    let h := env_host_string (env w) in
    let ok := leaf_ok X (log w) h op in
    let w' := emit [ECall h op ok] w in
    if ok then Done tt w' else Raised (LeafFailure h op) w'.

Definition catalog (op : Op) : Callable :=
  {| task_name := Catalog op; task_run := call op |}.

(** Modelled from the spec: [cluster.util.ensure_sudo_pass] is not among
    the sources.  Following section 4.2: when no secret is cached it prompts
    for one and stores it, failing with a credential error when none is
    supplied; when one is cached it is a no-op returning the cached value. *)
Definition ensure_sudo_pass : M string :=
  fun w =>
    match env_password (env w) with
    | Some s => Done s (emit [ECredential false] w)
    | None =>
        match operator_secret X with
        | Some s =>
            Done s (with_env (set_password (Some s))
                             (emit [ECredential true] w))
        | None => Raised CredentialError (emit [ECredential true] w)
        end
    end.

(** Fabric's [with settings(hosts=..., parallel=...)]: the overridden keys
    are restored when the block is left, normally or by an exception.
    [par = None] stands for a [settings] call without the [parallel]
    keyword. *)
Definition settings {A} (hs : list Host) (par : option bool) (body : M A)
  : M A :=
  fun w =>
    let saved_hosts := env_hosts (env w) in
    let saved_parallel := env_parallel (env w) in
    let enter e :=
      match par with
      | Some p => set_parallel p (set_hosts hs e)
      | None => set_hosts hs e
      end in
    let leave e :=
      match par with
      | Some _ => set_parallel saved_parallel (set_hosts saved_hosts e)
      | None => set_hosts saved_hosts e
      end in
    match body (with_env enter w) with
    | Done a w' => Done a (with_env leave w')
    | Raised e w' => Raised e (with_env leave w')
    end.

(** The executor binds [env.host_string] to the host for the duration of
    the task and restores it afterwards. *)
Definition with_host {A} (h : Host) (body : M A) : M A :=
  fun w =>
    let saved := env_host_string (env w) in
    match body (with_env (set_host_string (Some h)) w) with
    | Done a w' => Done a (with_env (set_host_string saved) w')
    | Raised e w' => Raised e (with_env (set_host_string saved) w')
    end.

(** Serial mode: hosts one at a time, in order; the first failure is
    raised at once and the remaining hosts are not attempted. *)
Fixpoint run_serial (body : M unit) (hs : list Host) : M unit :=
  match hs with
  | [] => ret tt
  | h :: hs' => with_host h body ;; run_serial body hs'
  end.

(** Parallel mode: every host of the group is dispatched; the hosts whose
    task failed are collected.  The log lists the hosts in group order,
    one linearisation of the concurrent run. *)
Fixpoint run_parallel (body : M unit) (hs : list Host) (w : World)
  : list Host * World :=
  match hs with
  | [] => ([], w)
  | h :: hs' =>
      match with_host h body w with
      | Done _ w' => run_parallel body hs' w'
      | Raised _ w' =>
          let (failed, w'') := run_parallel body hs' w' in
          (h :: failed, w'')
      end
  end.

(** Modelled from the spec: Fabric's [execute] (the remote executor) is an
    external library.  Following sections 3, 6 and 7: the task runs against
    each host of [env.hosts], in the mode given by [env.parallel]; a serial
    phase fails at the first host that fails, a parallel phase fails when
    any host fails and reports the failed hosts.  The host list is taken as
    given (no de-duplication) and an empty list runs the task on no host. *)
Definition execute (c : Callable) : M unit :=
  fun w =>
    let hs := env_hosts (env w) in
    let par := env_parallel (env w) in
    let w0 := emit [EExecute hs par (task_name c)] w in
    if par then
      match run_parallel (task_run c) hs w0 with
      | ([], w1) => Done tt w1
      | (failed, w1) => Raised (ParallelFailure (task_name c) failed) w1
      end
    else run_serial (task_run c) hs w0.

End Engine.

(** A keyword argument with a default value: [None] when the caller leaves
    it out. *)
Definition kwarg {A} (default : A) (given : option A) : A :=
  match given with
  | Some a => a
  | None => default
  end.

(** ** [fabfile/cluster/db/__init__.py]

    The decorators [@runs_once] and [@task] say how the command line invokes
    a procedure (once per [fab] run, whatever the host list); what is
    embedded is that one invocation. *)

Module Db.
Section Procedures.

Variable X : Collaborators.

Definition upgrade_host_internal : M unit :=
  call X db_drain ;;
  call X db_stop ;;
  call X db_start ;;
  call X db_wait_until_ready ;;
  call X db_upgradesstables.

Definition upgrade_host_internal_task : Callable :=
  {| task_name := UpgradeHostInternal; task_run := upgrade_host_internal |}.

Definition upgrade : M unit :=
  ensure_sudo_pass X ;;
  (* Stop puppet on the db nodes *)
  settings (cluster_hosts_db X) (Some true)
    (execute (catalog X (puppet_stop true))) ;;
  (* Pull the updated puppet configuration *)
  settings [cluster_hosts_puppet X] (Some true)
    (execute (catalog X puppet_git_update)) ;;
  (* Run puppet on the db nodes *)
  settings (cluster_hosts_db X) (Some true)
    (execute (catalog X (puppet_run false))) ;;
  (* Upgrade each db node sequentially *)
  settings (cluster_hosts_db X) (Some false)
    (execute upgrade_host_internal_task) ;;
  (* Start puppet on the db nodes *)
  settings (cluster_hosts_db X) (Some true)
    (execute (catalog X puppet_start)).

Definition upgrade_host : M unit :=
  ensure_sudo_pass X ;;
  execute (catalog X (puppet_stop true)) ;;
  execute (catalog X (puppet_run false)) ;;
  execute upgrade_host_internal_task ;;
  execute (catalog X puppet_start).

End Procedures.
End Db.

(** ** [fabfile/cluster/search/__init__.py] *)

Module Search.
Section Procedures.

Variable X : Collaborators.

(** [getattr(env, 'search_index_name', 'oae')] *)
Definition search_index_name : M string :=
  fun w => Done (kwarg "oae" (env_search_index_name (env w))) w.

Definition upgrade (delete_index rebuild_index uninstall : option bool)
  : M unit :=
  let delete_index := kwarg false delete_index in
  let rebuild_index := kwarg false rebuild_index in
  let uninstall := kwarg true uninstall in
  ensure_sudo_pass X ;;
  (* Stop puppet on the search nodes *)
  settings (cluster_hosts_search X) (Some true)
    (execute (catalog X (puppet_stop true))) ;;
  (* Pull the updated puppet configuration *)
  settings [cluster_hosts_puppet X] (Some true)
    (execute (catalog X puppet_git_update)) ;;
  (* If we're deleting the data, clear index *)
  when delete_index
    (first <- index0 (cluster_hosts_search X) ;;
     settings [first] None
       (name <- search_index_name ;;
        execute (catalog X (search_delete_index name)))) ;;
  (* Uninstall ElasticSearch if the option has not been disabled *)
  when uninstall
    (settings (cluster_hosts_search X) (Some true)
       (execute (catalog X search_uninstall) ;;
        execute (catalog X apt_update))) ;;
  (* Bring the full cluster down *)
  settings (cluster_hosts_search X) (Some true)
    (execute (catalog X search_stop)) ;;
  (* Run puppet on the search nodes and ensure they come back up *)
  settings (cluster_hosts_search X) (Some true)
    (execute (catalog X (puppet_run false)) ;;
     execute (catalog X search_start)) ;;
  (* Bounce an app server so it will recreate the index *)
  when rebuild_index
    (first <- index0 (cluster_hosts_app X) ;;
     settings [first] None
       (execute (catalog X hilary_stop) ;;
        execute (catalog X hilary_start) ;;
        execute (catalog X hilary_wait_until_ready))) ;;
  (* Start puppet on the search nodes *)
  settings (cluster_hosts_search X) (Some true)
    (execute (catalog X puppet_start)).

Definition upgrade_host
  (delete_index rebuild_index uninstall : option bool)
  (hilary_reboot_host : option Host) : M unit :=
  let delete_index := kwarg false delete_index in
  let rebuild_index := kwarg false rebuild_index in
  let uninstall := kwarg true uninstall in
  let hilary_reboot_host := kwarg "pp0" hilary_reboot_host in
  ensure_sudo_pass X ;;
  (* Stop puppet on the search node *)
  execute (catalog X (puppet_stop true)) ;;
  (* If we're deleting the data, clear the index *)
  when delete_index
    (name <- search_index_name ;;
     execute (catalog X (search_delete_index name))) ;;
  (* Uninstall ElasticSearch if the option has not been disabled *)
  when uninstall (execute (catalog X search_uninstall)) ;;
  (* Bring the search node down *)
  execute (catalog X search_stop) ;;
  (* Run puppet on the search node *)
  execute (catalog X (puppet_run false)) ;;
  (* Ensure the node is running again *)
  execute (catalog X search_start) ;;
  (* Reboot a hilary node so it can create the schema again *)
  when rebuild_index
    (settings [hilary_reboot_host] None
       (execute (catalog X hilary_stop) ;;
        execute (catalog X hilary_start) ;;
        execute (catalog X hilary_wait_until_ready))) ;;
  (* Start puppet on the search node again *)
  execute (catalog X puppet_start).

End Procedures.
End Search.

(** ** Observations on a log *)

Definition is_dispatch (ev : Event) : bool :=
  match ev with
  | EExecute _ _ _ => true
  | _ => false
  end.

Definition is_call (ev : Event) : bool :=
  match ev with
  | ECall _ _ _ => true
  | _ => false
  end.

Definition is_credential (ev : Event) : bool :=
  match ev with
  | ECredential _ => true
  | _ => false
  end.

(** The phases handed to the executor, in order. *)
Definition dispatched (l : list Event) : list Event := filter is_dispatch l.

(** The leaf operations invoked on hosts, in order. *)
Definition calls (l : list Event) : list Event := filter is_call l.

(** A run starts from an environment and an empty log. *)
Definition start (e : Env) : World := {| env := e; log := [] |}.

Definition run {A} (m : M A) (e : Env) : Result A := m (start e).

Definition trace {A} (m : M A) (e : Env) : list Event :=
  log (world_of (run m e)).

(** The operations of the per-host maintenance sub-sequence, in order. *)
Definition maintenance_ops : list Op :=
  [db_drain; db_stop; db_start; db_wait_until_ready; db_upgradesstables].

(** The calls a host sees when every operation of [ops] succeeds on it, and
    when [op] fails after the operations of [pre] succeeded. *)
Definition ok_calls (h : option Host) (ops : list Op) : list Event :=
  map (fun op => ECall h op true) ops.

Definition failed_calls (h : option Host) (pre : list Op) (op : Op)
  : list Event :=
  ok_calls h pre ++ [ECall h op false].

Definition group_ok_calls (hs : list Host) (ops : list Op) : list Event :=
  List.concat (map (fun h => ok_calls (Some h) ops) hs).

(** Some leaf operation can fail, in some situation. *)
Definition leaf_fails (X : Collaborators) : Prop :=
  exists l h op, leaf_ok X l h op = false.

(** Every leaf operation succeeds, whatever happened before. *)
Definition reliable (X : Collaborators) : Prop :=
  forall l h op, leaf_ok X l h op = true.

(** A task body that is a straight line of catalogue operations on the
    current host, stopping at the first one that fails. *)
Definition straight (X : Collaborators) (ops : list Op) (m : M unit) : Prop :=
  forall w,
    m w = Done tt (emit (ok_calls (env_host_string (env w)) ops) w) \/
    exists pre op post,
      ops = pre ++ op :: post /\
      m w = Raised (LeafFailure (env_host_string (env w)) op)
                   (emit (failed_calls (env_host_string (env w)) pre op) w) /\
      leaf_fails X.

(** Calls of operations of [ops] on hosts of [hs] only. *)
Definition on_group (hs : list Host) (ops : list Op) (cs : list Event)
  : Prop :=
  Forall (fun ev => exists h op ok,
            ev = ECall (Some h) op ok /\ In h hs /\ In op ops) cs.

(** The catalogue operations a task runs on each host. *)
Definition task_ops (t : TaskName) : list Op :=
  match t with
  | Catalog op => [op]
  | UpgradeHostInternal => maintenance_ops
  end.

(** How a phase over [hs] fails.  Serial: the hosts of [done] completed, the
    operations of [pre] succeeded on [h], then [op] failed there and the
    failure names [h]; nothing else was invoked.  Parallel: the calls stay
    within the group and the failure lists failed hosts of the group. *)
Definition phase_aborts (X : Collaborators) (hs : list Host) (par : bool)
  (t : TaskName) (cs : list Event) (e : Failure) : Prop :=
  leaf_fails X /\
  if par then
    on_group hs (task_ops t) cs /\
    exists failed, e = ParallelFailure t failed /\ failed <> [] /\
                   incl failed hs
  else
    exists done h rest pre op post,
      hs = done ++ h :: rest /\ task_ops t = pre ++ op :: post /\
      cs = group_ok_calls done (task_ops t) ++ failed_calls (Some h) pre op /\
      e = LeafFailure (Some h) op.

(** ** Procedures as phase lists

    Section 9 of the specification reads a procedure as an ordered list of
    phase descriptors.  [runs_plan plan l f] says that the log [l] and the
    outcome [f] are those of running the steps of [plan] in order until one
    fails. *)
Inductive Step : Type :=
| Dispatch (hs : list Host) (par : bool) (t : TaskName)
| RaiseIndexError.

Inductive runs_plan (X : Collaborators)
  : list Step -> list Event -> option Failure -> Prop :=
| rp_done : runs_plan X [] [] None
| rp_index plan : runs_plan X (RaiseIndexError :: plan) [] (Some IndexError)
| rp_ok hs par t plan l f :
    runs_plan X plan l f ->
    runs_plan X (Dispatch hs par t :: plan)
              (EExecute hs par t :: group_ok_calls hs (task_ops t) ++ l) f
| rp_fail hs par t plan cs e :
    phase_aborts X hs par t cs e ->
    runs_plan X (Dispatch hs par t :: plan) (EExecute hs par t :: cs)
              (Some e).

Definition failure_of {A} (r : Result A) : option Failure :=
  match r with
  | Done _ _ => None
  | Raised e _ => Some e
  end.

(** [m], started in environment [E] with any log, extends the log as a run
    of [plan] does and leaves the environment as it found it. *)
Definition conforms (X : Collaborators) (E : Env) (m : M unit)
  (plan : list Step) : Prop :=
  forall l0,
    exists l,
      log (world_of (m {| env := E; log := l0 |})) = l0 ++ l /\
      env (world_of (m {| env := E; log := l0 |})) = E /\
      runs_plan X plan l (failure_of (m {| env := E; log := l0 |})).

(** The log of a plan whose every phase succeeds on every host. *)
Fixpoint expand (plan : list Step) : list Event :=
  match plan with
  | [] => []
  | Dispatch hs par t :: plan' =>
      EExecute hs par t :: group_ok_calls hs (task_ops t) ++ expand plan'
  | RaiseIndexError :: _ => []
  end.

Fixpoint plan_dispatches (plan : list Step) : list Event :=
  match plan with
  | [] => []
  | Dispatch hs par t :: plan' => EExecute hs par t :: plan_dispatches plan'
  | RaiseIndexError :: _ => []
  end.

Definition db_upgrade_plan (X : Collaborators) : list Step :=
  [ Dispatch (cluster_hosts_db X) true (Catalog (puppet_stop true));
    Dispatch [cluster_hosts_puppet X] true (Catalog puppet_git_update);
    Dispatch (cluster_hosts_db X) true (Catalog (puppet_run false));
    Dispatch (cluster_hosts_db X) false UpgradeHostInternal;
    Dispatch (cluster_hosts_db X) true (Catalog puppet_start) ].

Definition db_upgrade_host_plan (E : Env) : list Step :=
  let hs := env_hosts E in
  let par := env_parallel E in
  [ Dispatch hs par (Catalog (puppet_stop true));
    Dispatch hs par (Catalog (puppet_run false));
    Dispatch hs par UpgradeHostInternal;
    Dispatch hs par (Catalog puppet_start) ].

Definition index_name_of (E : Env) : string :=
  kwarg "oae" (env_search_index_name E).

(** A block bound to the first host of a group: [group[0]] raises on an
    empty group before anything of the block is dispatched. *)
Definition on_first (group : list Host) (steps : Host -> list Step)
  : list Step :=
  match group with
  | [] => [RaiseIndexError]
  | first :: _ => steps first
  end.

Definition search_upgrade_plan (X : Collaborators) (E : Env)
  (delete_index rebuild_index uninstall : bool) : list Step :=
  let S := cluster_hosts_search X in
  [ Dispatch S true (Catalog (puppet_stop true));
    Dispatch [cluster_hosts_puppet X] true (Catalog puppet_git_update) ]
  ++ (if delete_index then
        on_first S (fun first =>
          [ Dispatch [first] (env_parallel E)
              (Catalog (search_delete_index (index_name_of E))) ])
      else [])
  ++ (if uninstall then
        [ Dispatch S true (Catalog search_uninstall);
          Dispatch S true (Catalog apt_update) ]
      else [])
  ++ [ Dispatch S true (Catalog search_stop) ]
  ++ [ Dispatch S true (Catalog (puppet_run false));
       Dispatch S true (Catalog search_start) ]
  ++ (if rebuild_index then
        on_first (cluster_hosts_app X) (fun first =>
          [ Dispatch [first] (env_parallel E) (Catalog hilary_stop);
            Dispatch [first] (env_parallel E) (Catalog hilary_start);
            Dispatch [first] (env_parallel E)
              (Catalog hilary_wait_until_ready) ])
      else [])
  ++ [ Dispatch S true (Catalog puppet_start) ].

Definition search_upgrade_host_plan (E : Env)
  (delete_index rebuild_index uninstall : bool) (hilary_reboot_host : Host)
  : list Step :=
  let hs := env_hosts E in
  let par := env_parallel E in
  [ Dispatch hs par (Catalog (puppet_stop true)) ]
  ++ (if delete_index then
        [ Dispatch hs par (Catalog (search_delete_index (index_name_of E))) ]
      else [])
  ++ (if uninstall then [ Dispatch hs par (Catalog search_uninstall) ]
      else [])
  ++ [ Dispatch hs par (Catalog search_stop) ]
  ++ [ Dispatch hs par (Catalog (puppet_run false)) ]
  ++ [ Dispatch hs par (Catalog search_start) ]
  ++ (if rebuild_index then
        [ Dispatch [hilary_reboot_host] par (Catalog hilary_stop);
          Dispatch [hilary_reboot_host] par (Catalog hilary_start);
          Dispatch [hilary_reboot_host] par (Catalog hilary_wait_until_ready) ]
      else [])
  ++ [ Dispatch hs par (Catalog puppet_start) ].

(** The credential step of a run from [e]: whether it prompts, whether a
    secret is to be had at all, and the environment it leaves behind. *)
Definition prompted (e : Env) : bool :=
  match env_password e with
  | Some _ => false
  | None => true
  end.

Definition credential_available (X : Collaborators) (e : Env) : bool :=
  match env_password e, operator_secret X with
  | None, None => false
  | _, _ => true
  end.

Definition credential_env (X : Collaborators) (e : Env) : Env :=
  match env_password e with
  | Some _ => e
  | None => set_password (operator_secret X) e
  end.

(** The shape of a whole procedure run: the credential step first, then the
    plan; without a credential nothing but the prompt happens. *)
Definition procedure_runs (X : Collaborators) (e : Env) (plan : list Step)
  (r : Result unit) : Prop :=
  if credential_available X e then
    exists l,
      log (world_of r) = ECredential (prompted e) :: l /\
      runs_plan X plan l (failure_of r)
  else r = Raised CredentialError {| env := e; log := [ECredential true] |}.

(** Events a plan accounts for: the dispatch of one of its phases, or a
    call of one of that phase's operations on one of its hosts. *)
Definition planned_event (plan : list Step) (ev : Event) : Prop :=
  (exists hs par t, ev = EExecute hs par t /\ In (Dispatch hs par t) plan) \/
  (exists h op ok hs par t,
     ev = ECall (Some h) op ok /\ In (Dispatch hs par t) plan /\
     In h hs /\ In op (task_ops t)).

(** ** Classifying events *)

Definition is_index_deletion_op (op : Op) : bool :=
  match op with
  | search_delete_index _ => true
  | _ => false
  end.

Definition is_app_node_op (op : Op) : bool :=
  match op with
  | hilary_stop | hilary_start | hilary_wait_until_ready => true
  | _ => false
  end.

(** The operation an event is about, if any. *)
Definition event_op (ev : Event) : option Op :=
  match ev with
  | EExecute _ _ (Catalog op) => Some op
  | ECall _ op _ => Some op
  | _ => None
  end.

Definition about (P : Op -> bool) (ev : Event) : bool :=
  match event_op ev with
  | Some op => P op
  | None => false
  end.

Definition is_uninstall_op (op : Op) : bool :=
  match op with
  | search_uninstall => true
  | _ => false
  end.

Definition is_apply_config_op (op : Op) : bool :=
  match op with
  | puppet_run _ => true
  | _ => false
  end.

(** Scanning [l] from the front, an event satisfying [p] is met before any
    event satisfying [q] (or neither is met at all). *)
Fixpoint guarded (p q : Event -> bool) (l : list Event) : bool :=
  match l with
  | [] => true
  | ev :: l' => negb (q ev) && (p ev || guarded p q l')
  end.

(** Whether a plan contains a step that raises. *)
Definition raising (plan : list Step) : bool :=
  existsb (fun s => match s with
                    | RaiseIndexError => true
                    | Dispatch _ _ _ => false
                    end) plan.

(** A cluster in which stopping the database service fails on [db-2]. *)
Definition stop_fails_on_db2 (l : list Event) (h : option Host) (op : Op)
  : bool :=
  match op, h with
  | db_stop, Some host => negb (String.eqb host "db-2")
  | _, _ => true
  end.

(** ** A sample cluster, for concrete runs *)

Definition sample_cluster : Collaborators :=
  {| cluster_hosts_db := ["db-1"; "db-2"; "db-3"];
     cluster_hosts_search := ["search-1"; "search-2"; "search-3"];
     cluster_hosts_app := ["app-1"];
     cluster_hosts_puppet := "puppet";
     operator_secret := Some "secret";
     leaf_ok := fun _ _ _ => true |}.

Definition fresh_env : Env :=
  {| env_hosts := [];
     env_parallel := false;
     env_host_string := None;
     env_password := None;
     env_search_index_name := None |}.

Definition faulty_cluster : Collaborators :=
  {| cluster_hosts_db := ["db-1"; "db-2"; "db-3"];
     cluster_hosts_search := ["search-1"; "search-2"; "search-3"];
     cluster_hosts_app := ["app-1"];
     cluster_hosts_puppet := "puppet";
     operator_secret := Some "secret";
     leaf_ok := stop_fails_on_db2 |}.

(** A cluster whose database and search groups resolve to no host. *)
Definition empty_cluster : Collaborators :=
  {| cluster_hosts_db := [];
     cluster_hosts_search := [];
     cluster_hosts_app := ["app-1"];
     cluster_hosts_puppet := "puppet";
     operator_secret := Some "secret";
     leaf_ok := fun _ _ _ => true |}.

(** An environment that sets [env.search_index_name]. *)
Definition custom_index_env : Env :=
  {| env_hosts := [];
     env_parallel := false;
     env_host_string := None;
     env_password := None;
     env_search_index_name := Some "custom" |}.

(** A cluster whose operator supplies no secret. *)
Definition locked_cluster : Collaborators :=
  {| cluster_hosts_db := ["db-1"; "db-2"; "db-3"];
     cluster_hosts_search := ["search-1"; "search-2"; "search-3"];
     cluster_hosts_app := ["app-1"];
     cluster_hosts_puppet := "puppet";
     operator_secret := None;
     leaf_ok := fun _ _ _ => true |}.

(** The environment of [fab -H host ...]. *)
Definition env_for (host : Host) : Env := set_hosts [host] fresh_env.

(** ** Further classification and sample data *)

Definition is_package_update_op (op : Op) : bool :=
  match op with
  | apt_update => true
  | _ => false
  end.

Definition is_agent_start_op (op : Op) : bool :=
  match op with
  | puppet_start => true
  | _ => false
  end.

Definition is_service_stop_op (op : Op) : bool :=
  match op with
  | search_stop => true
  | _ => false
  end.

Definition is_service_start_op (op : Op) : bool :=
  match op with
  | search_start => true
  | _ => false
  end.

(** The agent operations are given the keyword arguments [force=True] (stop)
    and [force=False] (run), and no others. *)
Definition agent_flags_ok (op : Op) : bool :=
  match op with
  | puppet_stop force => force
  | puppet_run force => negb force
  | _ => true
  end.

(** Every event of [l] satisfying [p] is the last one of [l]. *)
Fixpoint only_last (p : Event -> bool) (l : list Event) : bool :=
  match l with
  | [] => true
  | ev :: l' =>
      (negb (p ev) || match l' with [] => true | _ :: _ => false end)
      && only_last p l'
  end.

(** A cluster whose application group resolves to no host. *)
Definition no_app_cluster : Collaborators :=
  {| cluster_hosts_db := ["db-1"; "db-2"; "db-3"];
     cluster_hosts_search := ["search-1"; "search-2"; "search-3"];
     cluster_hosts_app := [];
     cluster_hosts_puppet := "puppet";
     operator_secret := Some "secret";
     leaf_ok := fun _ _ _ => true |}.

(** The environment of [fab -P -H db-1,db-2 ...]. *)
Definition parallel_pair_env : Env :=
  set_parallel true (set_hosts ["db-1"; "db-2"] fresh_env).

(** ** Counting and ordering calls *)

(** A call of an operation satisfying [P] (a dispatch is not a call). *)
Definition call_of (P : Op -> bool) (ev : Event) : bool :=
  match ev with
  | ECall _ op _ => P op
  | _ => false
  end.

(** The number of calls of operations satisfying [P] that a plan makes when
    every phase succeeds: one per host of the group for each such operation
    of the phase's task. *)
Fixpoint plan_calls_count (P : Op -> bool) (plan : list Step) : nat :=
  match plan with
  | [] => 0
  | Dispatch hs _ t :: plan' =>
      List.length hs * List.length (filter P (task_ops t))
      + plan_calls_count P plan'
  | RaiseIndexError :: _ => 0
  end.

(** Going through the plan, a phase that calls an operation satisfying [P]
    on at least one host comes before any phase with an operation satisfying
    [Q] (or no phase has one before the plan ends or raises). *)
Fixpoint plan_guarded (P Q : Op -> bool) (plan : list Step) : bool :=
  match plan with
  | [] => true
  | Dispatch hs _ t :: plan' =>
      negb (existsb Q (task_ops t))
      && ((existsb P (task_ops t)
           && match hs with [] => false | _ :: _ => true end)
          || plan_guarded P Q plan')
  | RaiseIndexError :: _ => true
  end.

(** ** The engine *)

Section EngineFacts.

Variable X : Collaborators.

Lemma emit_emit (a b : list Event) (w : World) :
  emit b (emit a w) = emit (a ++ b) w.
Proof. unfold emit; cbn. now rewrite app_assoc. Qed.

Lemma emit_nil (w : World) : emit [] w = w.
Proof. destruct w; unfold emit; cbn. now rewrite app_nil_r. Qed.

Lemma restore_host_string (h : option Host) (evs : list Event) (w : World) :
  with_env (set_host_string (env_host_string (env w)))
           (emit evs (with_env (set_host_string h) w)) = emit evs w.
Proof. destruct w as [[] l]; reflexivity. Qed.

Lemma straight_call (op : Op) : straight X [op] (call X op).
Proof.
  intros w. unfold call.
  destruct (leaf_ok X (log w) (env_host_string (env w)) op) eqn:Hok.
  - now left.
  - right. exists [], op, []. split; [reflexivity|]. split; [reflexivity|].
    now exists (log w), (env_host_string (env w)), op.
Qed.

Lemma straight_upgrade_host_internal :
  straight X maintenance_ops (Db.upgrade_host_internal X).
Proof.
  intros w. unfold Db.upgrade_host_internal, bind, call, maintenance_ops.
  repeat match goal with
  | |- context [if leaf_ok X ?l ?h' ?o then _ else _] =>
      let E := fresh "E" in
      destruct (leaf_ok X l h' o) eqn:E; cbn [env emit]
  end;
  rewrite ?emit_emit; cbn [app];
  [ now left | right .. ].
  - exists [db_drain; db_stop; db_start; db_wait_until_ready],
      db_upgradesstables, [].
    split; [reflexivity|]. split; [reflexivity|].
    do 3 eexists; eassumption.
  - exists [db_drain; db_stop; db_start], db_wait_until_ready,
      [db_upgradesstables].
    split; [reflexivity|]. split; [reflexivity|].
    do 3 eexists; eassumption.
  - exists [db_drain; db_stop], db_start,
      [db_wait_until_ready; db_upgradesstables].
    split; [reflexivity|]. split; [reflexivity|].
    do 3 eexists; eassumption.
  - exists [db_drain], db_stop,
      [db_start; db_wait_until_ready; db_upgradesstables].
    split; [reflexivity|]. split; [reflexivity|].
    do 3 eexists; eassumption.
  - exists [], db_drain,
      [db_stop; db_start; db_wait_until_ready; db_upgradesstables].
    split; [reflexivity|]. split; [reflexivity|].
    do 3 eexists; eassumption.
Qed.

Lemma with_host_straight (ops : list Op) (m : M unit) (h : Host) (w : World) :
  straight X ops m ->
  with_host h m w = Done tt (emit (ok_calls (Some h) ops) w) \/
  exists pre op post,
    ops = pre ++ op :: post /\
    with_host h m w = Raised (LeafFailure (Some h) op)
                             (emit (failed_calls (Some h) pre op) w) /\
    leaf_fails X.
Proof.
  intros Hm. unfold with_host.
  destruct (Hm (with_env (set_host_string (Some h)) w))
    as [E | (pre & op & post & Hops & E & Hf)]; rewrite E;
    cbn [with_env env set_host_string env_host_string].
  - left. f_equal. apply restore_host_string.
  - right. exists pre, op, post. split; [assumption|].
    split; [|assumption]. f_equal. apply restore_host_string.
Qed.

Lemma on_group_app hs ops a b :
  on_group hs ops a -> on_group hs ops b -> on_group hs ops (a ++ b).
Proof. unfold on_group. intros. now apply Forall_app. Qed.

Lemma on_group_weaken hs hs' ops ops' cs :
  incl hs hs' -> incl ops ops' -> on_group hs ops cs -> on_group hs' ops' cs.
Proof.
  unfold on_group. intros Hh Ho H.
  eapply Forall_impl; [|exact H]. cbn.
  intros ev (h & op & ok & -> & ? & ?). exists h, op, ok. auto.
Qed.

Lemma on_group_ok_calls h hs ops ops' :
  In h hs -> incl ops ops' -> on_group hs ops' (ok_calls (Some h) ops).
Proof.
  intros Hh Ho. unfold on_group, ok_calls. apply Forall_forall.
  intros ev Hev. apply in_map_iff in Hev as (op & <- & Hop).
  exists h, op, true. auto.
Qed.

Lemma on_group_failed_calls h hs ops pre op post :
  In h hs -> ops = pre ++ op :: post ->
  on_group hs ops (failed_calls (Some h) pre op).
Proof.
  intros Hh ->. unfold failed_calls. apply on_group_app.
  - apply on_group_ok_calls; [assumption|]. intros x Hx.
    apply in_or_app. now left.
  - constructor; [|constructor]. exists h, op, false.
    repeat split; [assumption|]. apply in_or_app. right. now left.
Qed.

Lemma on_group_group_ok_calls hs ops :
  on_group hs ops (group_ok_calls hs ops).
Proof.
  unfold group_ok_calls.
  assert (G : forall l, incl l hs ->
              on_group hs ops
                (List.concat (map (fun h => ok_calls (Some h) ops) l))).
  { induction l as [|h l IH]; intros Hl; cbn.
    - constructor.
    - apply on_group_app.
      + apply on_group_ok_calls; [apply Hl; now left | apply incl_refl].
      + apply IH. intros x Hx. apply Hl. now right. }
  apply G, incl_refl.
Qed.

Lemma run_serial_straight ops m hs : straight X ops m -> forall w,
  run_serial m hs w = Done tt (emit (group_ok_calls hs ops) w) \/
  exists done h rest pre op post,
    hs = done ++ h :: rest /\ ops = pre ++ op :: post /\
    run_serial m hs w =
      Raised (LeafFailure (Some h) op)
             (emit (group_ok_calls done ops ++ failed_calls (Some h) pre op)
                   w) /\
    leaf_fails X.
Proof.
  intros Hm. induction hs as [|h hs IH]; intros w.
  - left. cbn. unfold ret. now rewrite emit_nil.
  - cbn [run_serial]. unfold bind.
    destruct (with_host_straight h w Hm)
      as [E | (pre & op & post & Hops & E & Hf)]; rewrite E.
    + destruct (IH (emit (ok_calls (Some h) ops) w))
        as [E' | (done & h' & rest & pre & op & post & Hhs & Hops & E' & Hf)];
        rewrite E', emit_emit.
      * now left.
      * right. exists (h :: done), h', rest, pre, op, post.
        split; [now rewrite Hhs|]. split; [assumption|].
        split; [|assumption].
        unfold group_ok_calls. cbn. now rewrite <- app_assoc.
    + right. now exists [], h, hs, pre, op, post.
Qed.

Lemma run_parallel_straight ops m hs : straight X ops m -> forall w,
  exists failed cs,
    run_parallel m hs w = (failed, emit cs w) /\
    on_group hs ops cs /\ incl failed hs /\
    (failed = [] -> cs = group_ok_calls hs ops) /\
    (failed <> [] -> leaf_fails X).
Proof.
  intros Hm. induction hs as [|h hs IH]; intros w.
  - exists [], []. cbn. rewrite emit_nil.
    repeat split; [constructor | apply incl_refl | congruence].
  - cbn [run_parallel].
    destruct (with_host_straight h w Hm)
      as [E | (pre & op & post & Hops & E & Hf)]; rewrite E.
    + destruct (IH (emit (ok_calls (Some h) ops) w))
        as (failed & cs & E' & Hcs & Hinc & Hall & Hbad).
      exists failed, (ok_calls (Some h) ops ++ cs).
      rewrite E', emit_emit. repeat split.
      * apply on_group_app.
        -- apply on_group_ok_calls; [now left | apply incl_refl].
        -- eapply on_group_weaken;
             [apply incl_tl, incl_refl | apply incl_refl | exact Hcs].
      * now apply incl_tl.
      * intros ->. rewrite Hall by reflexivity. reflexivity.
      * assumption.
    + destruct (IH (emit (failed_calls (Some h) pre op) w))
        as (failed & cs & E' & Hcs & Hinc & Hall & Hbad).
      exists (h :: failed), (failed_calls (Some h) pre op ++ cs).
      rewrite E', emit_emit. repeat split.
      * apply on_group_app.
        -- eapply on_group_failed_calls; [now left | eassumption].
        -- eapply on_group_weaken;
             [apply incl_tl, incl_refl | apply incl_refl | exact Hcs].
      * intros x [<- | Hx]; [now left | right; now apply Hinc].
      * discriminate.
      * intros _. assumption.
Qed.

(** What one [execute] does to the world, for a straight-line task. *)
Lemma execute_cases (c : Callable) (w : World) :
  straight X (task_ops (task_name c)) (task_run c) ->
  let hs := env_hosts (env w) in
  let par := env_parallel (env w) in
  let t := task_name c in
  execute c w =
    Done tt (emit (EExecute hs par t :: group_ok_calls hs (task_ops t)) w) \/
  exists cs e,
    execute c w = Raised e (emit (EExecute hs par t :: cs) w) /\
    phase_aborts X hs par t cs e.
Proof.
  intros Hm hs par t. unfold execute. fold hs par t.
  set (ev := EExecute hs par t).
  unfold phase_aborts. destruct par.
  - destruct (run_parallel_straight hs Hm (emit [ev] w))
      as (failed & cs & E & Hcs & Hinc & Hall & Hbad).
    rewrite E, emit_emit. cbn [app].
    destruct failed as [|f failed].
    + left. now rewrite Hall.
    + right. exists cs. eexists. split; [reflexivity|].
      split; [apply Hbad; discriminate|].
      split; [assumption|]. eexists. split; [reflexivity|].
      split; [discriminate | assumption].
  - destruct (run_serial_straight hs Hm (emit [ev] w))
      as [E | (done & h & rest & pre & op & post & Hhs & Hops & E & Hf)];
      rewrite E, emit_emit; cbn [app].
    + now left.
    + right. eexists. eexists. split; [reflexivity|].
      split; [assumption|].
      now exists done, h, rest, pre, op, post.
Qed.

End EngineFacts.

(** ** Procedures conform to their phase lists *)

Section Conformance.

Variable X : Collaborators.

Lemma runs_plan_app p1 p2 l1 l2 f :
  runs_plan X p1 l1 None -> runs_plan X p2 l2 f ->
  runs_plan X (p1 ++ p2) (l1 ++ l2) f.
Proof.
  intros H1 H2. remember None as n eqn:Hn.
  induction H1; try discriminate; cbn.
  - assumption.
  - rewrite <- app_assoc. constructor. auto.
Qed.

Lemma runs_plan_abort p1 p2 l e :
  runs_plan X p1 l (Some e) -> runs_plan X (p1 ++ p2) l (Some e).
Proof.
  intros H. remember (Some e) as f eqn:Hf.
  induction H; try discriminate; cbn.
  - injection Hf as <-. constructor.
  - constructor. auto.
  - injection Hf as <-. now constructor.
Qed.

Lemma conforms_ret E : conforms X E (ret tt) [].
Proof.
  intros l0. exists []. cbn. rewrite app_nil_r. repeat split. constructor.
Qed.

Lemma conforms_bind E (m k : M unit) p1 p2 :
  conforms X E m p1 -> conforms X E k p2 -> conforms X E (m ;; k) (p1 ++ p2).
Proof.
  intros Hm Hk l0. unfold bind.
  destruct (Hm l0) as (l1 & Hl & He & Hr).
  destruct (m {| env := E; log := l0 |}) as [[] [E1 L1] | e [E1 L1]];
    cbn in Hl, He, Hr; subst E1 L1.
  - destruct (Hk (l0 ++ l1)) as (l2 & Hl2 & He2 & Hr2).
    exists (l1 ++ l2). rewrite Hl2, app_assoc.
    repeat split; [assumption|]. now apply runs_plan_app.
  - exists l1. cbn. repeat split. now apply runs_plan_abort.
Qed.

Lemma conforms_execute E (c : Callable) :
  straight X (task_ops (task_name c)) (task_run c) ->
  conforms X E (execute c)
           [Dispatch (env_hosts E) (env_parallel E) (task_name c)].
Proof.
  intros Hc l0.
  destruct (execute_cases c {| env := E; log := l0 |} Hc)
    as [Ex | (cs & e & Ex & Hab)]; cbn [env] in *; rewrite Ex; cbn.
  - eexists. repeat split. rewrite <- (app_nil_r (group_ok_calls _ _)).
    repeat constructor.
  - eexists. repeat split. now constructor.
Qed.

Lemma conforms_catalog E (op : Op) :
  conforms X E (execute (catalog X op))
           [Dispatch (env_hosts E) (env_parallel E) (Catalog op)].
Proof. apply (conforms_execute E (catalog X op)), straight_call. Qed.

Lemma conforms_internal E :
  conforms X E (execute (Db.upgrade_host_internal_task X))
           [Dispatch (env_hosts E) (env_parallel E) UpgradeHostInternal].
Proof.
  apply (conforms_execute E (Db.upgrade_host_internal_task X)),
    straight_upgrade_host_internal.
Qed.

Lemma conforms_settings_mode E hs p (body : M unit) plan :
  conforms X (set_parallel p (set_hosts hs E)) body plan ->
  conforms X E (settings hs (Some p) body) plan.
Proof.
  intros Hb l0. unfold settings. cbn [with_env env log].
  destruct (Hb l0) as (l & Hl & He & Hr).
  destruct (body _) as [[] [E1 L1] | e [E1 L1]];
    cbn in Hl, He, Hr |- *; subst E1 L1;
    exists l; repeat split; try assumption; now destruct E.
Qed.

Lemma conforms_settings_hosts E hs (body : M unit) plan :
  conforms X (set_hosts hs E) body plan ->
  conforms X E (settings hs None body) plan.
Proof.
  intros Hb l0. unfold settings. cbn [with_env env log].
  destruct (Hb l0) as (l & Hl & He & Hr).
  destruct (body _) as [[] [E1 L1] | e [E1 L1]];
    cbn in Hl, He, Hr |- *; subst E1 L1;
    exists l; repeat split; try assumption; now destruct E.
Qed.

Lemma conforms_when E (flag : bool) (body : M unit) plan :
  conforms X E body plan ->
  conforms X E (when flag body) (if flag then plan else []).
Proof. destruct flag; cbn; [trivial | intros _; apply conforms_ret]. Qed.

Lemma conforms_index0 E group (k : Host -> M unit) steps :
  (forall first, conforms X E (k first) (steps first)) ->
  conforms X E (first <- index0 group ;; k first) (on_first group steps).
Proof.
  intros Hk. destruct group as [|first rest]; cbn.
  - intros l0. exists []. cbn. rewrite app_nil_r. repeat split. constructor.
  - apply Hk.
Qed.

Lemma conforms_index_name E (k : string -> M unit) plan :
  conforms X E (k (index_name_of E)) plan ->
  conforms X E (name <- Search.search_index_name ;; k name) plan.
Proof. intros Hk l0. exact (Hk l0). Qed.

Lemma with_credential e (body : M unit) plan :
  conforms X (credential_env X e) body plan ->
  procedure_runs X e plan (run (ensure_sudo_pass X ;; body) e).
Proof.
  intros Hb. unfold procedure_runs, credential_available, credential_env,
    prompted, run, start, bind, ensure_sudo_pass in *. cbn [env log].
  destruct (env_password e) as [s|] eqn:Hp.
  - destruct (Hb [ECredential false]) as (l & Hl & _ & Hr).
    exists l. cbn. split; assumption.
  - destruct (operator_secret X) as [s|]; [|reflexivity].
    destruct (Hb [ECredential true]) as (l & Hl & _ & Hr).
    exists l. cbn. split; assumption.
Qed.

Lemma conforms_eq E (m : M unit) p p' :
  conforms X E m p -> p = p' -> conforms X E m p'.
Proof. now intros H <-. Qed.

Ltac conform :=
  repeat first
    [ eapply conforms_catalog
    | eapply conforms_internal
    | eapply conforms_settings_mode
    | eapply conforms_settings_hosts
    | eapply conforms_when
    | eapply conforms_index0; intros ?
    | eapply conforms_index_name
    | eapply conforms_bind ].

Lemma db_upgrade_runs e :
  procedure_runs X e (db_upgrade_plan X) (run (Db.upgrade X) e).
Proof.
  unfold Db.upgrade. apply with_credential.
  eapply conforms_eq; [conform | reflexivity].
Qed.

Lemma db_upgrade_host_runs e :
  procedure_runs X e (db_upgrade_host_plan e) (run (Db.upgrade_host X) e).
Proof.
  unfold Db.upgrade_host. apply with_credential.
  eapply conforms_eq; [conform|].
  unfold credential_env. now destruct (env_password e).
Qed.

Lemma search_upgrade_runs e di ri un :
  procedure_runs X e
    (search_upgrade_plan X e (kwarg false di) (kwarg false ri)
                         (kwarg true un))
    (run (Search.upgrade X di ri un) e).
Proof.
  unfold Search.upgrade. apply with_credential.
  eapply conforms_eq; [conform|].
  unfold credential_env. now destruct (env_password e).
Qed.

Lemma search_upgrade_host_runs e di ri un reboot :
  procedure_runs X e
    (search_upgrade_host_plan e (kwarg false di) (kwarg false ri)
                              (kwarg true un) (kwarg "pp0" reboot))
    (run (Search.upgrade_host X di ri un reboot) e).
Proof.
  unfold Search.upgrade_host. apply with_credential.
  eapply conforms_eq; [conform|].
  unfold credential_env. now destruct (env_password e).
Qed.

End Conformance.

(** ** What a run of a phase list looks like *)

Section PlanFacts.

Variable X : Collaborators.

Lemma on_group_filter (P : Event -> bool) hs ops cs :
  on_group hs ops cs ->
  (forall h op ok, P (ECall h op ok) = false) -> filter P cs = [].
Proof.
  intros H HP. induction H as [|ev cs (h & op & ok & -> & _) _ IH]; cbn.
  - reflexivity.
  - now rewrite HP.
Qed.

Lemma phase_aborts_on_group hs par t cs e :
  phase_aborts X hs par t cs e -> on_group hs (task_ops t) cs.
Proof.
  unfold phase_aborts. destruct par.
  - now intros (_ & H & _).
  - intros (_ & done & h & rest & pre & op & post & -> & Hops & -> & _).
    apply on_group_app.
    + eapply on_group_weaken;
        [| apply incl_refl | apply on_group_group_ok_calls].
      intros x Hx. apply in_or_app. now left.
    + eapply on_group_failed_calls; [|eassumption].
      apply in_or_app. right. now left.
Qed.

Lemma runs_plan_dispatched plan l f :
  runs_plan X plan l f ->
  exists rest,
    plan_dispatches plan = dispatched l ++ rest /\ (f = None -> rest = []).
Proof.
  unfold dispatched. induction 1 as [| |hs par t plan l f H IH|]; cbn.
  - now exists [].
  - exists []. split; [reflexivity | discriminate].
  - destruct IH as (rest & Hr & Hn). exists rest.
    rewrite filter_app, (on_group_filter is_dispatch
                           (on_group_group_ok_calls hs (task_ops t)))
      by reflexivity.
    cbn. now rewrite Hr.
  - exists (plan_dispatches plan).
    rewrite (on_group_filter is_dispatch
               (phase_aborts_on_group H))
      by reflexivity.
    split; [reflexivity | discriminate].
Qed.

Lemma runs_plan_done plan l : runs_plan X plan l None -> l = expand plan.
Proof.
  intros H. remember None as f eqn:Hf.
  induction H; try discriminate; cbn.
  - reflexivity.
  - now rewrite IHruns_plan.
Qed.

Lemma planned_event_tl step plan ev :
  planned_event plan ev -> planned_event (step :: plan) ev.
Proof.
  intros [(hs & par & t & -> & H)
         | (h & op & ok & hs & par & t & -> & H & Hh & Ho)].
  - left. exists hs, par, t. split; [reflexivity | now right].
  - right. exists h, op, ok, hs, par, t.
    split; [reflexivity|]. split; [now right|]. now split.
Qed.

Lemma planned_on_group hs par t plan cs :
  on_group hs (task_ops t) cs ->
  Forall (planned_event (Dispatch hs par t :: plan)) cs.
Proof.
  unfold on_group. apply Forall_impl.
  intros ev (h & op & ok & -> & Hh & Ho). right.
  exists h, op, ok, hs, par, t.
  split; [reflexivity|]. split; [now left|]. now split.
Qed.

Lemma runs_plan_events plan l f :
  runs_plan X plan l f -> Forall (planned_event plan) l.
Proof.
  induction 1 as [| |hs par t plan l f H IH|hs par t plan cs e H].
  - constructor.
  - constructor.
  - constructor.
    + left. exists hs, par, t. split; [reflexivity | now left].
    + apply Forall_app. split.
      * apply planned_on_group, on_group_group_ok_calls.
      * eapply Forall_impl; [|exact IH]. intros. now apply planned_event_tl.
  - constructor.
    + left. exists hs, par, t. split; [reflexivity | now left].
    + eapply planned_on_group, (phase_aborts_on_group H).
Qed.

Lemma planned_event_not_credential plan ev :
  planned_event plan ev -> is_credential ev = false.
Proof.
  now intros [(? & ? & ? & -> & _) | (? & ? & ? & ? & ? & ? & -> & _)].
Qed.

Lemma runs_plan_total plan l : runs_plan X plan l None -> raising plan = false.
Proof.
  intros H. remember None as f eqn:Hf.
  induction H; try discriminate; cbn; auto.
Qed.

Lemma guarded_sound p q l :
  guarded p q l = true ->
  forall l1 ev l2, l = l1 ++ ev :: l2 -> q ev = true ->
                   existsb p l1 = true.
Proof.
  induction l as [|a l IH]; intros Hg l1 ev l2 Hl Hq.
  - now destruct l1.
  - cbn in Hg. apply andb_prop in Hg as [Hqa Hg].
    destruct l1 as [|b l1]; cbn in Hl; injection Hl as -> ->.
    + now rewrite Hq in Hqa.
    + cbn. destruct (p b); [reflexivity|]. cbn in *. eauto.
Qed.

Lemma guarded_prefix p q l rest :
  guarded p q (l ++ rest) = true -> guarded p q l = true.
Proof.
  induction l as [|a l IH]; cbn; [reflexivity|].
  intros H. apply andb_prop in H as [-> H]. cbn.
  destruct (p a); [reflexivity|]. cbn in *. auto.
Qed.

Lemma prefix_count (p : Event -> bool) l rest :
  List.length (filter p l) <= List.length (filter p (l ++ rest)).
Proof. rewrite filter_app, length_app. lia. Qed.

Lemma runs_plan_reliable plan l f :
  runs_plan X plan l f -> reliable X ->
  l = expand plan /\
  f = if raising plan then Some IndexError else None.
Proof.
  intros H Hrel. induction H as [| |hs par t plan l f H IH|hs par t plan cs e H].
  - now split.
  - now split.
  - destruct IH as [-> ->]. now split.
  - destruct H as [(l & h & op & Hbad) _]. now rewrite Hrel in Hbad.
Qed.

Lemma in_ok_calls h0 ops h op ok :
  In (ECall h op ok) (ok_calls h0 ops) -> h = h0 /\ In op ops /\ ok = true.
Proof.
  unfold ok_calls. intros H. apply in_map_iff in H as (op' & Heq & Hin).
  injection Heq as -> -> <-. auto.
Qed.

Lemma in_on_group hs ops cs h op ok :
  on_group hs ops cs -> In (ECall h op ok) cs ->
  (exists h', h = Some h' /\ In h' hs) /\ In op ops.
Proof.
  unfold on_group. intros Hg Hin.
  apply (proj1 (Forall_forall _ _) Hg) in Hin
    as (h' & op' & ok' & Heq & Hh & Ho).
  injection Heq as -> -> ->. eauto.
Qed.

Lemma in_group_ok_calls hs ops h op ok :
  In (ECall h op ok) (group_ok_calls hs ops) ->
  (exists h', h = Some h' /\ In h' hs) /\ In op ops /\ ok = true.
Proof.
  intros H. split; [|split].
  - eapply in_on_group; [apply on_group_group_ok_calls | exact H].
  - eapply in_on_group; [apply on_group_group_ok_calls | exact H].
  - unfold group_ok_calls in H. apply in_concat in H as (l & Hl & Hin).
    apply in_map_iff in Hl as (h' & <- & _).
    now apply in_ok_calls in Hin.
Qed.

Lemma dispatched_ok_calls h ops : dispatched (ok_calls h ops) = [].
Proof. induction ops; cbn; auto. Qed.

Lemma dispatched_group_ok_calls hs ops :
  dispatched (group_ok_calls hs ops) = [].
Proof.
  apply (on_group_filter is_dispatch (on_group_group_ok_calls hs ops)).
  reflexivity.
Qed.

Lemma dispatched_app a b : dispatched (a ++ b) = dispatched a ++ dispatched b.
Proof. apply filter_app. Qed.

Lemma NoDup_split_disjoint (done rest : list Host) (h x : Host) :
  NoDup (done ++ h :: rest) -> In x rest -> x <> h /\ ~ In x done.
Proof.
  intros Hnd Hx. apply NoDup_remove in Hnd as [Hnd Hh]. split.
  - intros ->. apply Hh, in_or_app. now right.
  - intros Hd. revert Hnd Hx Hd. clear. induction done as [|d done IH]; cbn.
    + contradiction.
    + intros Hnd Hx [-> | Hd].
      * apply NoDup_cons_iff in Hnd as [Hn _].
        apply Hn, in_or_app. now right.
      * apply NoDup_cons_iff in Hnd as [_ Hnd]. auto.
Qed.

Lemma planned_not_credential plan l :
  Forall (planned_event plan) l -> filter is_credential l = [].
Proof.
  induction 1 as [|ev l Hev _ IH]; cbn; [reflexivity|].
  now rewrite (planned_event_not_credential Hev).
Qed.

Variable e : Env.
Variable plan : list Step.
Variable r : Result unit.
Hypothesis Hruns : procedure_runs X e plan r.

Lemma procedure_dispatched :
  exists rest,
    plan_dispatches plan = dispatched (log (world_of r)) ++ rest /\
    (completed r = true -> rest = []).
Proof.
  unfold procedure_runs in Hruns.
  destruct (credential_available X e).
  - destruct Hruns as (l & -> & Hr).
    destruct (runs_plan_dispatched Hr) as (rest & Hd & Hn).
    exists rest. split; [exact Hd|].
    intros Hc. apply Hn. now destruct r.
  - rewrite Hruns. cbn. exists (plan_dispatches plan).
    split; [reflexivity | discriminate].
Qed.

Lemma procedure_done :
  completed r = true ->
  log (world_of r) = ECredential (prompted e) :: expand plan.
Proof.
  intros Hc. unfold procedure_runs in Hruns.
  destruct (credential_available X e).
  - destruct Hruns as (l & -> & Hr). f_equal.
    apply runs_plan_done. now destruct r.
  - now rewrite Hruns in Hc.
Qed.

Lemma procedure_total : completed r = true -> raising plan = false.
Proof.
  intros Hc. unfold procedure_runs in Hruns.
  destruct (credential_available X e).
  - destruct Hruns as (l & _ & Hr). eapply runs_plan_total.
    destruct r; [exact Hr | discriminate].
  - now rewrite Hruns in Hc.
Qed.

Lemma procedure_gated (p q : Event -> bool) :
  guarded p q (plan_dispatches plan) = true ->
  List.length (filter p (plan_dispatches plan)) <= 1 ->
  (raising plan = false ->
   List.length (filter p (plan_dispatches plan)) = 1) ->
  List.length (filter p (dispatched (log (world_of r)))) <= 1 /\
  (completed r = true ->
   List.length (filter p (dispatched (log (world_of r)))) = 1) /\
  (forall l1 ev l2,
     dispatched (log (world_of r)) = l1 ++ ev :: l2 -> q ev = true ->
     existsb p l1 = true).
Proof.
  intros Hg Hle Hone.
  destruct procedure_dispatched as (rest & Hd & Hn).
  rewrite Hd in Hg, Hle. split; [|split].
  - pose proof (prefix_count p (dispatched (log (world_of r))) rest). lia.
  - intros Hc. rewrite <- Hone by now apply procedure_total.
    now rewrite Hd, (Hn Hc), app_nil_r.
  - apply guarded_sound. eapply guarded_prefix, Hg.
Qed.

Lemma procedure_reliable :
  credential_available X e = true -> reliable X ->
  log (world_of r) = ECredential (prompted e) :: expand plan /\
  failure_of r = if raising plan then Some IndexError else None.
Proof.
  intros Hc Hrel. unfold procedure_runs in Hruns. rewrite Hc in Hruns.
  destruct Hruns as (l & -> & Hr).
  destruct (runs_plan_reliable Hr Hrel) as [-> ->]. now split.
Qed.

Lemma procedure_log :
  exists l,
    log (world_of r) = ECredential (prompted e) :: l /\
    Forall (planned_event plan) l.
Proof.
  unfold procedure_runs, credential_available, prompted in *.
  destruct (env_password e).
  - destruct Hruns as (l & -> & Hr). exists l.
    split; [reflexivity | eapply runs_plan_events, Hr].
  - destruct (operator_secret X).
    + destruct Hruns as (l & -> & Hr). exists l.
      split; [reflexivity | eapply runs_plan_events, Hr].
    + rewrite Hruns. now exists [].
Qed.

Lemma procedure_events ev :
  In ev (log (world_of r)) ->
  ev = ECredential (prompted e) \/ planned_event plan ev.
Proof.
  destruct procedure_log as (l & -> & Hl).
  intros [<- | Hin]; [now left | right].
  revert ev Hin. now apply Forall_forall.
Qed.

End PlanFacts.

Arguments in_on_group {hs ops cs h op ok} _ _.
Arguments in_ok_calls {h0 ops h op ok} _.
Arguments in_group_ok_calls {hs ops h op ok} _.
Arguments phase_aborts_on_group {X hs par t cs e} _.
Arguments procedure_dispatched {X e plan r} Hruns.
Arguments procedure_done {X e plan r} Hruns _.
Arguments procedure_total {X e plan r} Hruns _.
Arguments procedure_reliable {X e plan r} Hruns _ _.
Arguments procedure_gated {X e plan r} Hruns p q _ _ _.
Arguments procedure_log {X e plan r} Hruns.
Arguments procedure_events {X e plan r} Hruns ev _.

(** ** Properties of the procedures *)

Ltac in_plan H :=
  cbn in H;
  repeat (destruct H as [H | H]; [inversion H; subst |]);
  try contradiction.

Ltac planned H :=
  let hs := fresh "hs" in
  let par := fresh "par" in
  let t := fresh "t" in
  let h := fresh "h" in
  let op := fresh "op" in
  let ok := fresh "ok" in
  let Heq := fresh "Heq" in
  let Hin := fresh "Hin" in
  let Hh := fresh "Hh" in
  let Hop := fresh "Hop" in
  destruct H as [Heq | [(hs & par & t & Heq & Hin)
                       | (h & op & ok & hs & par & t & Heq & Hin & Hh & Hop)]].

(** C1.  The cluster-wide search upgrade with delete-index false,
    rebuild-index false and uninstall true dispatches, when it runs to
    completion, exactly: stop agent, pull configuration (on the single
    configuration host), uninstall, package update, stop service, apply
    configuration, start service, start agent, each over the search group
    and in parallel mode.  Every run, completed or not, dispatches an initial
    segment of that list, and no event of any run concerns index deletion or
    an application-node operation.  The run completes whenever the credential
    is available and no leaf operation fails. *)
Theorem search_upgrade_uninstall_only (X : Collaborators) (e : Env) :
  let S := cluster_hosts_search X in
  let expected :=
    [ EExecute S true (Catalog (puppet_stop true));
      EExecute [cluster_hosts_puppet X] true (Catalog puppet_git_update);
      EExecute S true (Catalog search_uninstall);
      EExecute S true (Catalog apt_update);
      EExecute S true (Catalog search_stop);
      EExecute S true (Catalog (puppet_run false));
      EExecute S true (Catalog search_start);
      EExecute S true (Catalog puppet_start) ] in
  let m := Search.upgrade X (Some false) (Some false) (Some true) in
  (completed (run m e) = true -> dispatched (trace m e) = expected) /\
  (exists rest, expected = dispatched (trace m e) ++ rest) /\
  (forall ev, In ev (trace m e) ->
     about is_index_deletion_op ev = false /\
     about is_app_node_op ev = false) /\
  (credential_available X e = true -> reliable X ->
   completed (run m e) = true).
Proof.
  intros S expected m.
  pose proof (search_upgrade_runs X e (Some false) (Some false) (Some true))
    as Hruns.
  destruct (procedure_dispatched Hruns) as (rest & Hd & Hn).
  cbn in Hd. fold S in Hd. split; [|split; [|split]];
    [| | | intros Hcred Hrel;
           destruct (procedure_reliable Hruns Hcred Hrel) as [_ Hf];
           cbn in Hf; fold m in Hf; now destruct (run m e)].
  - intros Hc. rewrite (Hn Hc), app_nil_r in Hd. now symmetry.
  - now exists rest.
  - intros ev H. pose proof (procedure_events Hruns ev H) as Hev.
    planned Hev; subst ev.
    + now split.
    + in_plan Hin; now split.
    + in_plan Hin; in_plan Hop; now split.
Qed.

Lemma search_upgrade_uninstall_only_sample :
  dispatched
    (trace (Search.upgrade sample_cluster (Some false) (Some false)
                           (Some true)) fresh_env) =
  let S := ["search-1"; "search-2"; "search-3"] in
  [ EExecute S true (Catalog (puppet_stop true));
    EExecute ["puppet"] true (Catalog puppet_git_update);
    EExecute S true (Catalog search_uninstall);
    EExecute S true (Catalog apt_update);
    EExecute S true (Catalog search_stop);
    EExecute S true (Catalog (puppet_run false));
    EExecute S true (Catalog search_start);
    EExecute S true (Catalog puppet_start) ].
Proof.
  apply (search_upgrade_uninstall_only sample_cluster fresh_env).
  reflexivity.
Defined.

(** C4.  In the cluster-wide database upgrade every dispatch of the per-host
    maintenance sub-sequence is in serial mode and over the database group,
    and every other dispatch (stop agent, pull configuration, apply
    configuration, start agent) is in parallel mode; a completed run
    dispatches exactly these five phases in this order, and the run completes
    whenever the credential is available and no leaf operation fails. *)
Theorem db_upgrade_maintenance_serial (X : Collaborators) (e : Env) :
  let D := cluster_hosts_db X in
  (forall hs par t, In (EExecute hs par t) (trace (Db.upgrade X) e) ->
     match t with
     | UpgradeHostInternal => par = false /\ hs = D
     | Catalog _ => par = true
     end) /\
  (completed (run (Db.upgrade X) e) = true ->
   dispatched (trace (Db.upgrade X) e) =
     [ EExecute D true (Catalog (puppet_stop true));
       EExecute [cluster_hosts_puppet X] true (Catalog puppet_git_update);
       EExecute D true (Catalog (puppet_run false));
       EExecute D false UpgradeHostInternal;
       EExecute D true (Catalog puppet_start) ]) /\
  (credential_available X e = true -> reliable X ->
   completed (run (Db.upgrade X) e) = true).
Proof.
  intros D. pose proof (db_upgrade_runs X e) as Hruns.
  split; [|split];
    [| | intros Hcred Hrel;
         destruct (procedure_reliable Hruns Hcred Hrel) as [_ Hf];
         cbn in Hf; now destruct (run (Db.upgrade X) e)].
  - intros hs par t H.
    pose proof (procedure_events Hruns _ H) as Hev. planned Hev.
    + discriminate.
    + injection Heq as -> -> ->. in_plan Hin; auto.
    + discriminate.
  - intros Hc. destruct (procedure_dispatched Hruns) as (rest & Hd & Hn).
    rewrite (Hn Hc), app_nil_r in Hd. now symmetry.
Qed.

Lemma db_upgrade_maintenance_serial_sample :
  dispatched (trace (Db.upgrade sample_cluster) fresh_env) =
  let D := ["db-1"; "db-2"; "db-3"] in
  [ EExecute D true (Catalog (puppet_stop true));
    EExecute ["puppet"] true (Catalog puppet_git_update);
    EExecute D true (Catalog (puppet_run false));
    EExecute D false UpgradeHostInternal;
    EExecute D true (Catalog puppet_start) ].
Proof.
  apply (db_upgrade_maintenance_serial sample_cluster fresh_env).
  reflexivity.
Defined.

(** C2.  On the host it is invoked for, the per-host maintenance
    sub-sequence performs drain, stop, start, wait-until-ready and
    upgradesstables in this order, each on that host, stopping only at a step
    that fails; and the single-host database upgrade, run for the host [h],
    touches no other host: every phase is dispatched to [h] alone and every
    call is on [h], a completed run making exactly the calls stop agent,
    apply configuration, the five maintenance steps, start agent. *)
Theorem db_host_maintenance_sequence
  (X : Collaborators) (w : World) (e : Env) (h : Host) :
  env_host_string (env w) = Some h ->
  env_hosts e = [h] ->
  let steps :=
    [db_drain; db_stop; db_start; db_wait_until_ready; db_upgradesstables] in
  let on_h := map (fun op => ECall (Some h) op true) in
  (Db.upgrade_host_internal X w = Done tt (emit (on_h steps) w) \/
   exists pre op post,
     steps = pre ++ op :: post /\
     Db.upgrade_host_internal X w =
       Raised (LeafFailure (Some h) op)
              (emit (on_h pre ++ [ECall (Some h) op false]) w)) /\
  (forall ev, In ev (trace (Db.upgrade_host X) e) ->
     match ev with
     | ECall h' _ _ => h' = Some h
     | EExecute hs _ _ => hs = [h]
     | ECredential _ => True
     end) /\
  (completed (run (Db.upgrade_host X) e) = true ->
   calls (trace (Db.upgrade_host X) e) =
     on_h ([puppet_stop true; puppet_run false] ++ steps ++ [puppet_start])).
Proof.
  intros Hw He steps on_h. split; [|split].
  - destruct (straight_upgrade_host_internal X w)
      as [E | (pre & op & post & Hops & E)]; rewrite Hw in E.
    + now left.
    + right. now exists pre, op, post.
  - intros ev H.
    pose proof (procedure_events (db_upgrade_host_runs X e) ev H) as Hev.
    unfold db_upgrade_host_plan in Hev. rewrite He in Hev.
    planned Hev; subst ev.
    + exact I.
    + in_plan Hin; reflexivity.
    + in_plan Hin; in_plan Hh; reflexivity.
  - intros Hc. unfold trace.
    rewrite (procedure_done (db_upgrade_host_runs X e) Hc).
    unfold db_upgrade_host_plan. rewrite He. reflexivity.
Qed.

Lemma db_host_maintenance_sequence_sample :
  calls (trace (Db.upgrade_host sample_cluster) (env_for "db-3")) =
  map (fun op => ECall (Some "db-3") op true)
      [ puppet_stop true; puppet_run false; db_drain; db_stop; db_start;
        db_wait_until_ready; db_upgradesstables; puppet_start ].
Proof.
  apply (db_host_maintenance_sequence sample_cluster
           (with_env (set_host_string (Some "db-3")) (start fresh_env))
           (env_for "db-3") (h := "db-3") eq_refl eq_refl).
  reflexivity.
Defined.

Section CallFacts.

Variable X : Collaborators.
Variables P Q : Op -> bool.

Lemma count_ok_calls h ops :
  List.length (filter (call_of P) (ok_calls h ops)) =
  List.length (filter P ops).
Proof.
  unfold ok_calls. induction ops as [|op ops IH]; cbn; [reflexivity|].
  destruct (P op); cbn; now rewrite IH.
Qed.

Lemma count_group_ok_calls hs ops :
  List.length (filter (call_of P) (group_ok_calls hs ops)) =
  List.length hs * List.length (filter P ops).
Proof.
  unfold group_ok_calls. induction hs as [|h hs IH]; [reflexivity|].
  cbn [map List.concat List.length Nat.mul].
  now rewrite filter_app, length_app, count_ok_calls, IH.
Qed.

Lemma count_expand plan :
  List.length (filter (call_of P) (expand plan)) = plan_calls_count P plan.
Proof.
  induction plan as [|[hs par t|] plan IH]; [reflexivity| |reflexivity].
  cbn [expand plan_calls_count filter call_of].
  now rewrite filter_app, length_app, count_group_ok_calls, IH.
Qed.

Lemma guarded_skip (p q : Event -> bool) a b :
  Forall (fun ev => q ev = false) a ->
  guarded p q b = true -> guarded p q (a ++ b) = true.
Proof.
  induction 1 as [|ev a Hev _ IH]; cbn; intros Hb; [exact Hb|].
  rewrite Hev, (IH Hb). cbn. apply orb_true_r.
Qed.

Lemma quiet_on_group hs ops cs :
  existsb Q ops = false -> on_group hs ops cs ->
  Forall (fun ev => about Q ev = false) cs.
Proof.
  intros HQ. unfold on_group. apply Forall_impl.
  intros ev (h & op & ok & -> & _ & Hop). cbn.
  destruct (Q op) eqn:E; [|reflexivity].
  assert (existsb Q ops = true) by (apply existsb_exists; eauto).
  congruence.
Qed.

Lemma guarded_hit h ops rest :
  existsb Q ops = false -> existsb P ops = true ->
  guarded (call_of P) (about Q) (ok_calls h ops ++ rest) = true.
Proof.
  induction ops as [|op ops IH]; cbn; [discriminate|].
  intros HQ HP. apply orb_false_elim in HQ as [HQ1 HQ2].
  rewrite HQ1. cbn. destruct (P op); [reflexivity|]. cbn in *. auto.
Qed.

Lemma quiet_dispatch hs par t :
  existsb Q (task_ops t) = false -> about Q (EExecute hs par t) = false.
Proof.
  destruct t as [op|]; cbn; [|reflexivity].
  intros H. now apply orb_false_elim in H as [H _].
Qed.

(** A run of a guarded plan has a call satisfying [P] before any event about
    an operation satisfying [Q]. *)
Lemma runs_plan_guarded plan l f :
  runs_plan X plan l f ->
  plan_guarded P Q plan = true ->
  guarded (call_of P) (about Q) l = true.
Proof.
  induction 1 as [| |hs par t plan l f H IH|hs par t plan cs e H];
    intros Hg; try reflexivity.
  - cbn [plan_guarded] in Hg. apply andb_prop in Hg as [HQ Hg].
    apply negb_true_iff in HQ.
    cbn [guarded]. rewrite (quiet_dispatch hs par t HQ). cbn.
    apply orb_prop in Hg as [Hhit | Hrest].
    + apply andb_prop in Hhit as [HP Hhs].
      destruct hs as [|h hs]; [discriminate|].
      unfold group_ok_calls. cbn [map List.concat].
      rewrite <- app_assoc. now apply guarded_hit.
    + apply guarded_skip; [|auto].
      eapply quiet_on_group; [exact HQ | apply on_group_group_ok_calls].
  - cbn [plan_guarded] in Hg. apply andb_prop in Hg as [HQ _].
    apply negb_true_iff in HQ.
    cbn [guarded]. rewrite (quiet_dispatch hs par t HQ). cbn.
    rewrite <- (app_nil_r cs). apply guarded_skip; [|reflexivity].
    eapply quiet_on_group; [exact HQ | exact (phase_aborts_on_group H)].
Qed.

Variable e : Env.
Variable plan : list Step.
Variable r : Result unit.
Hypothesis Hruns : procedure_runs X e plan r.

Lemma procedure_call_order :
  plan_guarded P Q plan = true ->
  forall l1 ev l2,
    log (world_of r) = l1 ++ ev :: l2 -> about Q ev = true ->
    existsb (call_of P) l1 = true.
Proof.
  intros Hg. apply guarded_sound.
  unfold procedure_runs in Hruns. destruct (credential_available X e).
  - destruct Hruns as (l & -> & Hr). cbn.
    now apply (runs_plan_guarded Hr).
  - now rewrite Hruns.
Qed.

Lemma procedure_call_count :
  completed r = true ->
  List.length (filter (call_of P) (log (world_of r))) =
  plan_calls_count P plan.
Proof.
  intros Hc. rewrite (procedure_done Hruns Hc). cbn. apply count_expand.
Qed.

Lemma procedure_completes :
  credential_available X e = true -> reliable X -> raising plan = false ->
  completed r = true.
Proof.
  intros Hcred Hrel Hraise.
  destruct (procedure_reliable Hruns Hcred Hrel) as [_ Hf].
  rewrite Hraise in Hf. now destruct r.
Qed.

End CallFacts.

Arguments procedure_call_order {X} P Q {e plan r} Hruns _ l1 ev l2 _ _.
Arguments procedure_call_count {X} P {e plan r} Hruns _.
Arguments procedure_completes {X e plan r} Hruns _ _ _.

(** C3.  With delete-index false neither search upgrade ever dispatches or
    calls the index-deletion operation.  With delete-index true the
    cluster-wide upgrade dispatches it at most once in any run and, when the
    run completes, dispatches it once and calls it exactly once; the
    single-host upgrade likewise dispatches it at most once and, when the
    run completes, once, calling it once for each host of [env.hosts], hence
    exactly once when it is run for one host.  In both, no uninstall or
    apply-configuration phase is dispatched before the deletion phase, and
    every event about uninstall or about applying configuration, dispatch or
    call, comes after a call of index deletion (single-host: for a non-empty
    [env.hosts]).  The runs do complete whenever the credential is available
    and no leaf operation fails (cluster-wide: with the search group and,
    under rebuild-index, the application group non-empty). *)
Theorem index_deletion_gated
  (X : Collaborators) (e : Env) (ri un : option bool) (reboot : option Host)
  (h : Host) :
  let deletion := about is_index_deletion_op in
  let deletion_call := call_of is_index_deletion_op in
  let later ev := about is_uninstall_op ev || about is_apply_config_op ev in
  let gated (m : M unit) :=
    List.length (filter deletion (dispatched (trace m e))) <= 1 /\
    (completed (run m e) = true ->
     List.length (filter deletion (dispatched (trace m e))) = 1) /\
    (forall l1 ev l2,
       dispatched (trace m e) = l1 ++ ev :: l2 -> later ev = true ->
       existsb deletion l1 = true) in
  let called_first (m : M unit) :=
    forall l1 ev l2,
      trace m e = l1 ++ ev :: l2 -> later ev = true ->
      existsb deletion_call l1 = true in
  let cluster := Search.upgrade X (Some true) ri un in
  let single := Search.upgrade_host X (Some true) ri un reboot in
  (forall ev, In ev (trace (Search.upgrade X (Some false) ri un) e) ->
              deletion ev = false) /\
  (forall ev,
     In ev (trace (Search.upgrade_host X (Some false) ri un reboot) e) ->
     deletion ev = false) /\
  gated cluster /\
  gated single /\
  (completed (run cluster e) = true ->
   List.length (filter deletion_call (trace cluster e)) = 1) /\
  called_first cluster /\
  (credential_available X e = true -> reliable X ->
   cluster_hosts_search X <> [] ->
   (ri = Some true -> cluster_hosts_app X <> []) ->
   completed (run cluster e) = true) /\
  (completed (run single e) = true ->
   List.length (filter deletion_call (trace single e)) =
   List.length (env_hosts e)) /\
  (env_hosts e = [h] -> completed (run single e) = true ->
   List.length (filter deletion_call (trace single e)) = 1) /\
  (env_hosts e <> [] -> called_first single) /\
  (credential_available X e = true -> reliable X ->
   completed (run single e) = true).
Proof.
  intros deletion deletion_call later gated called_first cluster single.
  pose proof (search_upgrade_runs X e (Some true) ri un) as Hc.
  pose proof (search_upgrade_host_runs X e (Some true) ri un reboot) as Hs.
  fold cluster in Hc. fold single in Hs.
  set (Q := fun op => is_uninstall_op op || is_apply_config_op op).
  assert (HQ : forall ev, later ev = true -> about Q ev = true).
  { intros ev. unfold later, about, Q. now destruct (event_op ev). }
  assert (Hsingle : completed (run single e) = true ->
            List.length (filter deletion_call (trace single e)) =
            List.length (env_hosts e)).
  { intros Hdone. unfold deletion_call, trace.
    rewrite (procedure_call_count is_index_deletion_op Hs Hdone).
    unfold search_upgrade_host_plan.
    destruct ri as [[|]|], un as [[|]|]; cbn; lia. }
  repeat match goal with |- _ /\ _ => split end.
  - intros ev H.
    pose proof (procedure_events
                  (search_upgrade_runs X e (Some false) ri un) ev H) as Hev.
    revert Hev. unfold search_upgrade_plan, on_first.
    destruct ri as [[|]|], un as [[|]|];
      destruct (cluster_hosts_app X);
      intros Hev; planned Hev; subst ev; try reflexivity;
      in_plan Hin; try in_plan Hop; reflexivity.
  - intros ev H.
    pose proof (procedure_events
                  (search_upgrade_host_runs X e (Some false) ri un reboot)
                  ev H) as Hev.
    planned Hev; subst ev; [reflexivity|..];
      destruct ri as [[|]|], un as [[|]|];
      in_plan Hin; try in_plan Hop; reflexivity.
  - apply (procedure_gated Hc);
      unfold search_upgrade_plan, on_first;
      destruct ri as [[|]|], un as [[|]|];
      destruct (cluster_hosts_app X), (cluster_hosts_search X);
      cbn; solve [reflexivity | lia | discriminate].
  - apply (procedure_gated Hs);
      destruct ri as [[|]|], un as [[|]|];
      cbn; solve [reflexivity | lia | discriminate].
  - intros Hdone. pose proof (procedure_total Hc Hdone) as Ht.
    unfold deletion_call, trace.
    rewrite (procedure_call_count is_index_deletion_op Hc Hdone).
    revert Ht. unfold search_upgrade_plan, on_first.
    destruct ri as [[|]|], un as [[|]|];
      destruct (cluster_hosts_app X), (cluster_hosts_search X);
      cbn; try discriminate; intros _; lia.
  - intros l1 ev l2 Hl Hlater.
    apply (procedure_call_order is_index_deletion_op Q Hc)
      with (ev := ev) (l2 := l2); [|exact Hl|now apply HQ].
    unfold search_upgrade_plan, on_first.
    destruct ri as [[|]|], un as [[|]|];
      destruct (cluster_hosts_app X), (cluster_hosts_search X);
      reflexivity.
  - intros Hcred Hrel HS HA. apply (procedure_completes Hc Hcred Hrel).
    unfold search_upgrade_plan, on_first.
    destruct (cluster_hosts_search X); [contradiction|].
    destruct ri as [[|]|], un as [[|]|]; try reflexivity;
      (destruct (cluster_hosts_app X);
       [exfalso; now apply HA | reflexivity]).
  - exact Hsingle.
  - intros He Hdone. rewrite (Hsingle Hdone), He. reflexivity.
  - intros He l1 ev l2 Hl Hlater.
    apply (procedure_call_order is_index_deletion_op Q Hs)
      with (ev := ev) (l2 := l2); [|exact Hl|now apply HQ].
    unfold search_upgrade_host_plan.
    destruct (env_hosts e); [contradiction|].
    destruct ri as [[|]|], un as [[|]|]; reflexivity.
  - intros Hcred Hrel. apply (procedure_completes Hs Hcred Hrel).
    unfold search_upgrade_host_plan.
    destruct ri as [[|]|], un as [[|]|]; reflexivity.
Qed.

Lemma index_deletion_gated_sample :
  List.length
    (filter (call_of is_index_deletion_op)
       (trace (Search.upgrade sample_cluster (Some true) None None)
              fresh_env)) = 1 /\
  List.length
    (filter (call_of is_index_deletion_op)
       (trace (Search.upgrade_host sample_cluster (Some true) None None None)
              (env_for "search-1"))) = 1.
Proof.
  assert (Hrel : reliable sample_cluster) by (intros l h op; reflexivity).
  pose proof (index_deletion_gated sample_cluster fresh_env
                None None None "search-1") as Hc.
  pose proof (index_deletion_gated sample_cluster (env_for "search-1")
                None None None "search-1") as Hs.
  cbv zeta in Hc, Hs.
  destruct Hc as (_ & _ & _ & _ & Hcount & _ & Hdone & _).
  destruct Hs as (_ & _ & _ & _ & _ & _ & _ & _ & Hone & _ & Hdone').
  split.
  - apply Hcount, Hdone; [reflexivity | exact Hrel | discriminate
                          | discriminate].
  - apply Hone; [reflexivity|]. apply Hdone'; [reflexivity | exact Hrel].
Defined.

(** C5.  In each of the four top-level procedures the credential step is the
    first thing that happens and happens once: the log of a run starts with
    the one credential event, before any dispatch or call; when no
    credential is to be had the prompt is all that happens.  A second call of
    the credential step after a successful one prompts no more and returns
    the same, cached, secret. *)
Theorem credential_step_once
  (X : Collaborators) (e : Env) (di ri un : option bool)
  (reboot : option Host) :
  let once (m : M unit) :=
    (exists l, trace m e = ECredential (prompted e) :: l /\
               filter is_credential l = []) /\
    (credential_available X e = false -> trace m e = [ECredential true]) in
  once (Db.upgrade X) /\
  once (Db.upgrade_host X) /\
  once (Search.upgrade X di ri un) /\
  once (Search.upgrade_host X di ri un reboot) /\
  (forall w,
     match ensure_sudo_pass X w with
     | Done s w1 =>
         ensure_sudo_pass X w1 = Done s (emit [ECredential false] w1)
     | Raised _ _ => True
     end).
Proof.
  intros once.
  assert (H : forall plan m, procedure_runs X e plan (run m e) -> once m).
  { intros plan m Hruns. split.
    - destruct (procedure_log Hruns) as (l & Hl & Hp).
      exists l. split; [exact Hl | eapply planned_not_credential, Hp].
    - intros Hc. unfold procedure_runs in Hruns. rewrite Hc in Hruns.
      unfold trace. now rewrite Hruns. }
  split; [|split; [|split; [|split]]].
  - eapply H, db_upgrade_runs.
  - eapply H, db_upgrade_host_runs.
  - eapply H, search_upgrade_runs.
  - eapply H, search_upgrade_host_runs.
  - intros w. unfold ensure_sudo_pass.
    destruct (env_password (env w)) as [s|] eqn:Hp; cbn.
    + now rewrite Hp.
    + now destruct (operator_secret X).
Qed.

Lemma credential_step_once_sample :
  trace (Db.upgrade locked_cluster) fresh_env = [ECredential true].
Proof.
  apply (credential_step_once locked_cluster fresh_env None None None None).
  reflexivity.
Defined.

Ltac peel_ok Hfail :=
  destruct Hfail as [Hfail | Hfail]; [discriminate|];
  apply in_app_or in Hfail as [Hfail | Hfail];
  [apply in_group_ok_calls in Hfail as (_ & _ & Hfail); discriminate|].

(* A parallel phase of a catalogue task either completes, leaving the failed
   call further on, or fails on an operation that is not the one sought. *)
Ltac parallel_phase Hr Hfail Hop :=
  let Hab := fresh "Hab" in
  let Hr' := fresh "Hr" in
  let Hin := fresh "Hin" in
  inversion Hr as [ | | ? ? ? ? ? ? Hr' | ? ? ? ? ? ? Hab]; subst; clear Hr;
  [ peel_ok Hfail; rename Hr' into Hr
  | exfalso;
    destruct Hfail as [Hfail | Hfail]; [discriminate|];
    apply (in_on_group (phase_aborts_on_group Hab)) in Hfail as [_ Hin];
    in_plan Hin; in_plan Hop ].

(** C6.  If in the cluster-wide database upgrade a maintenance operation
    [op] fails on the host [h] of the serial phase, then the run is aborted
    with a failure naming [h] and [op]; the log consists of the three phases
    completed before, the hosts listed before [h] each with its five
    successful steps, the steps that succeeded on [h], and ends at the failed
    call.  So the four phases dispatched stay dispatched, the start-agent
    phase is never dispatched, and in a group without duplicates no host
    listed after [h] sees any maintenance operation. *)
Theorem serial_failure_stops_the_run
  (X : Collaborators) (e : Env) (h : Host) (op : Op) :
  In (ECall (Some h) op false) (trace (Db.upgrade X) e) ->
  In op maintenance_ops ->
  let D := cluster_hosts_db X in
  let P := cluster_hosts_puppet X in
  exists done rest pre post w,
    D = done ++ h :: rest /\
    maintenance_ops = pre ++ op :: post /\
    run (Db.upgrade X) e = Raised (LeafFailure (Some h) op) w /\
    log w =
      ECredential (prompted e)
      :: (EExecute D true (Catalog (puppet_stop true))
          :: group_ok_calls D [puppet_stop true])
      ++ (EExecute [P] true (Catalog puppet_git_update)
          :: group_ok_calls [P] [puppet_git_update])
      ++ (EExecute D true (Catalog (puppet_run false))
          :: group_ok_calls D [puppet_run false])
      ++ (EExecute D false UpgradeHostInternal
          :: group_ok_calls done maintenance_ops)
      ++ ok_calls (Some h) pre ++ [ECall (Some h) op false] /\
    dispatched (log w) =
      [ EExecute D true (Catalog (puppet_stop true));
        EExecute [P] true (Catalog puppet_git_update);
        EExecute D true (Catalog (puppet_run false));
        EExecute D false UpgradeHostInternal ] /\
    (NoDup D ->
     forall h' op' ok, In h' rest -> In op' maintenance_ops ->
                       ~ In (ECall (Some h') op' ok) (log w)).
Proof.
  intros Hfail Hop D P.
  pose proof (db_upgrade_runs X e) as Hruns.
  unfold procedure_runs, trace in *.
  destruct (credential_available X e).
  2: { rewrite Hruns in Hfail. cbn in Hfail. now destruct Hfail. }
  destruct Hruns as (l & Hl & Hr). rewrite Hl in Hfail.
  destruct Hfail as [Hfail | Hfail]; [discriminate|].
  unfold db_upgrade_plan in Hr. fold D P in Hr.
  remember (failure_of (run (Db.upgrade X) e)) as f eqn:Hf.
  do 3 parallel_phase Hr Hfail Hop.
  inversion Hr as [ | | ? ? ? ? l1 ? Hr' | ? ? ? ? cs err Hab]; subst; clear Hr.
  - peel_ok Hfail. parallel_phase Hr' Hfail Hop.
    inversion Hr'; subst. contradiction.
  - destruct Hab
      as (_ & done & h' & rest & pre & op' & post & HD & Hops & -> & ->).
    destruct Hfail as [Hfail | Hfail]; [discriminate|].
    apply in_app_or in Hfail as [Hfail | Hfail];
      [apply in_group_ok_calls in Hfail as (_ & _ & Hfail); discriminate|].
    apply in_app_or in Hfail as [Hfail | Hfail];
      [apply in_ok_calls in Hfail as (_ & _ & Hfail); discriminate|].
    destruct Hfail as [Hfail | []]. injection Hfail as -> ->.
    exists done, rest, pre, post, (world_of (run (Db.upgrade X) e)).
    split; [exact HD|]. split; [exact Hops|].
    split; [destruct (run (Db.upgrade X) e); cbn in *; congruence|].
    split; [exact Hl|]. split.
    + rewrite Hl. unfold failed_calls. unfold dispatched at 1. cbn [filter is_dispatch].
      fold (dispatched).
      repeat (rewrite ?dispatched_app, ?dispatched_group_ok_calls,
               ?dispatched_ok_calls; unfold dispatched at 1;
              cbn [filter is_dispatch app]; fold dispatched).
      reflexivity.
    + intros Hnd h' op' ok Hh' Hop' Hin. rewrite HD in Hnd.
      destruct (@NoDup_split_disjoint done rest h h' Hnd Hh') as [Hne Hnot].
      rewrite Hl in Hin.
      destruct Hin as [Hin | Hin]; [discriminate|].
      do 3 (destruct Hin as [Hin | Hin]; [discriminate|];
            apply in_app_or in Hin as [Hin | Hin];
            [apply in_group_ok_calls in Hin as (_ & Hin & _);
             in_plan Hin; in_plan Hop'|]).
      destruct Hin as [Hin | Hin]; [discriminate|].
      apply in_app_or in Hin as [Hin | Hin].
      * apply in_group_ok_calls in Hin as ((x & Hx & Hd) & _).
        injection Hx as ->. contradiction.
      * unfold failed_calls in Hin. apply in_app_or in Hin as [Hin | Hin].
        -- apply in_ok_calls in Hin as (Hx & _). injection Hx as ->.
           now apply Hne.
        -- destruct Hin as [Hin | []]. injection Hin as -> _ _.
           now apply Hne.
Qed.

Lemma serial_failure_stops_the_run_sample :
  dispatched (trace (Db.upgrade faulty_cluster) fresh_env) =
  let D := ["db-1"; "db-2"; "db-3"] in
  [ EExecute D true (Catalog (puppet_stop true));
    EExecute ["puppet"] true (Catalog puppet_git_update);
    EExecute D true (Catalog (puppet_run false));
    EExecute D false UpgradeHostInternal ].
Proof.
  destruct (@serial_failure_stops_the_run faulty_cluster fresh_env
              "db-2" db_stop)
    as (done & rest & pre & post & w & _ & _ & Hrun & _ & Hd & _).
  - vm_compute. tauto.
  - vm_compute. tauto.
  - unfold trace. rewrite Hrun. exact Hd.
Defined.

(** C7, as the code has it.  It is not the case that an empty required host
    group makes the procedure fail before the phase is dispatched: with the
    search and database groups empty, both cluster-wide upgrades run to
    completion, every whole-group phase being dispatched with the empty host
    list. *)
Lemma empty_group_not_rejected :
  cluster_hosts_search empty_cluster = [] /\
  cluster_hosts_db empty_cluster = [] /\
  completed (run (Search.upgrade empty_cluster None None None) fresh_env)
    = true /\
  dispatched (trace (Search.upgrade empty_cluster None None None) fresh_env) =
    [ EExecute [] true (Catalog (puppet_stop true));
      EExecute ["puppet"] true (Catalog puppet_git_update);
      EExecute [] true (Catalog search_uninstall);
      EExecute [] true (Catalog apt_update);
      EExecute [] true (Catalog search_stop);
      EExecute [] true (Catalog (puppet_run false));
      EExecute [] true (Catalog search_start);
      EExecute [] true (Catalog puppet_start) ] /\
  completed (run (Db.upgrade empty_cluster) fresh_env) = true /\
  dispatched (trace (Db.upgrade empty_cluster) fresh_env) =
    [ EExecute [] true (Catalog (puppet_stop true));
      EExecute ["puppet"] true (Catalog puppet_git_update);
      EExecute [] true (Catalog (puppet_run false));
      EExecute [] false UpgradeHostInternal;
      EExecute [] true (Catalog puppet_start) ].
Proof. repeat split. Qed.

(** C7, amended.  The procedures make no emptiness check of a resolved
    group: once the credential is available, the cluster-wide search and
    database upgrades dispatch their first phase, stop agent, with the empty
    host list.  Only the phase that selects the first host of the group is
    stopped by an empty group: with delete-index true and an empty search
    group the run never completes and never dispatches or calls index
    deletion, and when no leaf operation fails it ends with an index error,
    raised after exactly the stop-agent and pull-configuration phases were
    dispatched. *)
Theorem empty_group_handling
  (X : Collaborators) (e : Env) (di ri un : option bool) :
  credential_available X e = true ->
  let first_phase := EExecute [] true (Catalog (puppet_stop true)) in
  (cluster_hosts_search X = [] ->
   exists l, trace (Search.upgrade X di ri un) e =
             ECredential (prompted e) :: first_phase :: l) /\
  (cluster_hosts_db X = [] ->
   exists l, trace (Db.upgrade X) e =
             ECredential (prompted e) :: first_phase :: l) /\
  (cluster_hosts_search X = [] ->
   let m := Search.upgrade X (Some true) ri un in
   completed (run m e) = false /\
   (forall ev, In ev (trace m e) -> about is_index_deletion_op ev = false) /\
   (reliable X ->
    failure_of (run m e) = Some IndexError /\
    dispatched (trace m e) =
      [ first_phase;
        EExecute [cluster_hosts_puppet X] true (Catalog puppet_git_update) ])).
Proof.
  intros Hcred first_phase. split; [|split].
  - intros HS. pose proof (search_upgrade_runs X e di ri un) as Hruns.
    unfold procedure_runs in Hruns. rewrite Hcred in Hruns.
    destruct Hruns as (l & Hl & Hr). unfold trace. rewrite Hl.
    unfold search_upgrade_plan in Hr. rewrite HS in Hr. cbn [app] in Hr.
    inversion Hr; subst; eexists; reflexivity.
  - intros HD. pose proof (db_upgrade_runs X e) as Hruns.
    unfold procedure_runs in Hruns. rewrite Hcred in Hruns.
    destruct Hruns as (l & Hl & Hr). unfold trace. rewrite Hl.
    unfold db_upgrade_plan in Hr. rewrite HD in Hr.
    inversion Hr; subst; eexists; reflexivity.
  - intros HS m.
    pose proof (search_upgrade_runs X e (Some true) ri un) as Hruns.
    fold m in Hruns.
    assert (Hraise : raising (search_upgrade_plan X e (kwarg false (Some true))
                                (kwarg false ri) (kwarg true un)) = true).
    { unfold search_upgrade_plan. rewrite HS. reflexivity. }
    split; [|split].
    + destruct (completed (run m e)) eqn:Hc; [|reflexivity].
      rewrite (procedure_total Hruns Hc) in Hraise. discriminate.
    + intros ev H. pose proof (procedure_events Hruns ev H) as Hev.
      revert Hev. unfold search_upgrade_plan, on_first. rewrite HS.
      destruct ri as [[|]|], un as [[|]|];
        destruct (cluster_hosts_app X);
        intros Hev; planned Hev; subst ev; try reflexivity;
        in_plan Hin; try in_plan Hop; reflexivity.
    + intros Hrel.
      destruct (procedure_reliable Hruns Hcred Hrel) as [Hl Hf].
      rewrite Hraise in Hf. split; [exact Hf|].
      unfold trace. rewrite Hl. unfold search_upgrade_plan. rewrite HS.
      reflexivity.
Qed.

Lemma empty_group_handling_sample :
  failure_of (run (Search.upgrade empty_cluster (Some true) None None)
                  fresh_env) = Some IndexError.
Proof.
  apply (@empty_group_handling empty_cluster fresh_env None None None
           eq_refl).
  - reflexivity.
  - intros l h op. reflexivity.
Defined.

(** C8.  A completed cluster-wide search upgrade with delete-index true,
    rebuild-index true and uninstall false has exactly this log: after stop
    agent and pull configuration, index deletion is dispatched to the first
    host of the search group alone and called once there, before the
    stop-service, apply-configuration and start-service phases over the
    group; after start service, the application service is stopped, started
    and waited for, in this order, on the first application host alone;
    start agent closes the run.  Such a run exists whenever the credential is
    available, no leaf operation fails and both groups are non-empty. *)
Theorem search_upgrade_rebuild (X : Collaborators) (e : Env) :
  let m := Search.upgrade X (Some true) (Some true) (Some false) in
  let S := cluster_hosts_search X in
  let P := cluster_hosts_puppet X in
  let par := env_parallel e in
  let name := kwarg "oae" (env_search_index_name e) in
  (completed (run m e) = true ->
   exists s0 srest a0 arest,
     S = s0 :: srest /\ cluster_hosts_app X = a0 :: arest /\
     trace m e =
       ECredential (prompted e)
       :: (EExecute S true (Catalog (puppet_stop true))
           :: group_ok_calls S [puppet_stop true])
       ++ [ EExecute [P] true (Catalog puppet_git_update);
            ECall (Some P) puppet_git_update true ]
       ++ [ EExecute [s0] par (Catalog (search_delete_index name));
            ECall (Some s0) (search_delete_index name) true ]
       ++ (EExecute S true (Catalog search_stop)
           :: group_ok_calls S [search_stop])
       ++ (EExecute S true (Catalog (puppet_run false))
           :: group_ok_calls S [puppet_run false])
       ++ (EExecute S true (Catalog search_start)
           :: group_ok_calls S [search_start])
       ++ [ EExecute [a0] par (Catalog hilary_stop);
            ECall (Some a0) hilary_stop true;
            EExecute [a0] par (Catalog hilary_start);
            ECall (Some a0) hilary_start true;
            EExecute [a0] par (Catalog hilary_wait_until_ready);
            ECall (Some a0) hilary_wait_until_ready true ]
       ++ (EExecute S true (Catalog puppet_start)
           :: group_ok_calls S [puppet_start])) /\
  (credential_available X e = true -> reliable X ->
   S <> [] -> cluster_hosts_app X <> [] -> completed (run m e) = true).
Proof.
  intros m S P par name.
  pose proof (search_upgrade_runs X e (Some true) (Some true) (Some false))
    as Hruns.
  fold m in Hruns. split.
  - intros Hc. pose proof (procedure_total Hruns Hc) as Ht.
    pose proof (procedure_done Hruns Hc) as Hl.
    revert Ht Hl. unfold search_upgrade_plan, on_first. fold S.
    destruct S as [|s0 srest] eqn:HS; [discriminate|].
    destruct (cluster_hosts_app X) as [|a0 arest]; [discriminate|].
    intros _ Hl. exists s0, srest, a0, arest.
    split; [reflexivity|]. split; [reflexivity|].
    unfold trace. rewrite Hl. cbn -[group_ok_calls].
    rewrite app_nil_r. reflexivity.
  - intros Hcred Hrel HS HA.
    destruct (procedure_reliable Hruns Hcred Hrel) as [_ Hf].
    revert Hf. unfold search_upgrade_plan, on_first. fold S.
    destruct S; [contradiction|].
    destruct (cluster_hosts_app X); [contradiction|].
    cbn. now destruct (run m e).
Qed.

Lemma search_upgrade_rebuild_sample :
  completed
    (run (Search.upgrade sample_cluster (Some true) (Some true) (Some false))
         fresh_env) = true.
Proof.
  apply (search_upgrade_rebuild sample_cluster fresh_env).
  - reflexivity.
  - intros l h op. reflexivity.
  - discriminate.
  - discriminate.
Defined.



(** C10.  [search_index_name] returns the environment's
    [search_index_name] when it is set and ["oae"] otherwise, and every
    dispatch and every call of index deletion, in any run of either search
    upgrade, carries that name as its index name. *)
Theorem index_name_passed
  (X : Collaborators) (e : Env) (di ri un : option bool)
  (reboot : option Host) :
  let expected :=
    match env_search_index_name e with
    | Some name => name
    | None => "oae"
    end in
  (forall w,
     Search.search_index_name w =
       Done match env_search_index_name (env w) with
            | Some name => name
            | None => "oae"
            end w) /\
  (forall ev name,
     In ev (trace (Search.upgrade X di ri un) e) \/
     In ev (trace (Search.upgrade_host X di ri un reboot) e) ->
     event_op ev = Some (search_delete_index name) ->
     name = expected).
Proof.
  intros expected. split; [reflexivity|].
  intros ev name [H | H] Hop.
  - pose proof (procedure_events (search_upgrade_runs X e di ri un) ev H)
      as Hev.
    revert Hev. unfold search_upgrade_plan, on_first.
    destruct di as [[|]|], ri as [[|]|], un as [[|]|];
      destruct (cluster_hosts_app X), (cluster_hosts_search X);
      intros Hev; planned Hev; subst ev; try discriminate;
      in_plan Hin; try in_plan Hop0; cbn in Hop; try discriminate;
      now injection Hop as <-.
  - pose proof (procedure_events
                  (search_upgrade_host_runs X e di ri un reboot) ev H)
      as Hev.
    revert Hev. unfold search_upgrade_host_plan.
    destruct di as [[|]|], ri as [[|]|], un as [[|]|];
      intros Hev; planned Hev; subst ev; try discriminate;
      in_plan Hin; try in_plan Hop0; cbn in Hop; try discriminate;
      now injection Hop as <-.
Qed.

Lemma index_name_passed_sample : "custom" = "custom".
Proof.
  apply (proj2 (index_name_passed sample_cluster custom_index_env
                  (Some true) None None None)
           (EExecute ["search-1"] false
                     (Catalog (search_delete_index "custom")))).
  - left. vm_compute. tauto.
  - reflexivity.
Defined.

(** ** More on runs of phase lists *)

Section RunFacts.

Variable X : Collaborators.

Lemma expand_app p1 p2 :
  raising p1 = false -> expand (p1 ++ p2) = expand p1 ++ expand p2.
Proof.
  induction p1 as [|[hs par t|] p1 IH]; cbn; intros H.
  - reflexivity.
  - rewrite IH by assumption. now rewrite <- app_assoc.
  - discriminate.
Qed.

Lemma raising_app p1 p2 : raising (p1 ++ p2) = raising p1 || raising p2.
Proof. apply existsb_app. Qed.

Lemma dispatch_not_on_group hs ops cs hs' par t :
  on_group hs ops cs -> ~ In (EExecute hs' par t) cs.
Proof.
  unfold on_group. intros Hg Hin.
  apply (proj1 (Forall_forall _ _) Hg) in Hin as (? & ? & ? & Heq & _).
  discriminate.
Qed.

(** A phase is dispatched only after every phase before it succeeded on
    every host of its group. *)
Lemma runs_plan_reached p1 hs par t p2 : forall l f,
  runs_plan X (p1 ++ Dispatch hs par t :: p2) l f ->
  In (EExecute hs par t) l ->
  ~ In (Dispatch hs par t) p1 ->
  raising p1 = false /\
  exists l2, l = expand p1 ++ EExecute hs par t :: l2.
Proof.
  induction p1 as [|[hs' par' t'|] p1 IH]; intros l f Hr Hin Hnot.
  - split; [reflexivity|]. cbn in *. inversion Hr; subst; eauto.
  - cbn in Hr. inversion Hr as [ | | ? ? ? ? l0 ? Hr' | ? ? ? ? cs err Hab];
      subst; clear Hr.
    + destruct Hin as [Hin | Hin].
      { injection Hin as -> -> ->. exfalso. apply Hnot. now left. }
      apply in_app_or in Hin as [Hin | Hin].
      { exfalso. eapply dispatch_not_on_group;
          [apply on_group_group_ok_calls | exact Hin]. }
      destruct (IH _ _ Hr' Hin) as (Hrz & l2 & ->).
      { intros H. apply Hnot. now right. }
      split; [exact Hrz|]. exists l2. cbn. now rewrite <- app_assoc.
    + exfalso. destruct Hin as [Hin | Hin].
      * injection Hin as -> -> ->. apply Hnot. now left.
      * eapply dispatch_not_on_group;
          [apply (phase_aborts_on_group Hab) | exact Hin].
  - cbn in Hr. inversion Hr; subst. contradiction.
Qed.

(** A failed run ends in the phase that failed, or at an index error. *)
Lemma runs_plan_failstop plan l e :
  runs_plan X plan l (Some e) ->
  e = IndexError \/
  exists l1 hs par t cs,
    l = l1 ++ EExecute hs par t :: cs /\ In (Dispatch hs par t) plan /\
    phase_aborts X hs par t cs e.
Proof.
  intros H. remember (Some e) as f eqn:Hf.
  induction H as [| |hs par t plan l f H IH|hs par t plan cs e' H].
  - discriminate.
  - injection Hf as <-. now left.
  - destruct (IH Hf) as [-> | (l1 & hs' & par' & t' & cs & -> & Hin & Hab)].
    + now left.
    + right.
      exists (EExecute hs par t :: group_ok_calls hs (task_ops t) ++ l1),
        hs', par', t', cs.
      split; [cbn; now rewrite <- app_assoc|]. split; [now right|assumption].
  - injection Hf as <-. right. exists [], hs, par, t, cs.
    split; [reflexivity|]. split; [now left|assumption].
Qed.

(** What follows a raising step of a plan plays no part in its runs. *)
Lemma runs_plan_cut p1 p2 : forall l f,
  runs_plan X (p1 ++ RaiseIndexError :: p2) l f ->
  runs_plan X (p1 ++ [RaiseIndexError]) l f.
Proof.
  induction p1 as [|[hs par t|] p1 IH]; cbn; intros l f Hr.
  - inversion Hr; subst. constructor.
  - inversion Hr; subst; constructor; auto.
  - inversion Hr; subst. constructor.
Qed.

Lemma only_last_sound p l :
  only_last p l = true ->
  forall l1 ev l2, l = l1 ++ ev :: l2 -> p ev = true -> l2 = [].
Proof.
  induction l as [|a l IH]; intros Ho l1 ev l2 Hl Hp.
  - now destruct l1.
  - cbn in Ho. apply andb_prop in Ho as [Ha Ho].
    destruct l1 as [|b l1]; cbn in Hl; injection Hl as -> ->.
    + rewrite Hp in Ha. cbn in Ha. now destruct l2.
    + eauto.
Qed.

Lemma only_last_prefix p l rest l1 ev l2 :
  only_last p (l ++ rest) = true ->
  l = l1 ++ ev :: l2 -> p ev = true -> l2 = [] /\ rest = [].
Proof.
  intros Ho -> Hp.
  assert (H : l2 ++ rest = []).
  { eapply only_last_sound; [exact Ho | | exact Hp].
    now rewrite <- app_assoc. }
  now apply app_eq_nil in H.
Qed.

(** The environment after a run: overridden settings are restored, whatever
    the outcome; only the cached secret is new. *)
Lemma run_env e (body : M unit) plan :
  conforms X (credential_env X e) body plan ->
  env (world_of (run (ensure_sudo_pass X ;; body) e)) =
    if credential_available X e then credential_env X e else e.
Proof.
  intros Hb. unfold credential_available, credential_env, run, start, bind,
    ensure_sudo_pass in *. cbn [env log].
  destruct (env_password e) as [s|] eqn:Hp.
  - destruct (Hb [ECredential false]) as (l & _ & He & _). exact He.
  - destruct (operator_secret X) as [s|]; [|reflexivity].
    destruct (Hb [ECredential true]) as (l & _ & He & _). exact He.
Qed.

End RunFacts.

Arguments runs_plan_reached {X} p1 hs par t p2 {l f} _ _ _.
Arguments runs_plan_failstop {X plan l e} _.
Arguments runs_plan_cut {X} p1 p2 {l f} _.
Arguments run_env {X e body plan} _.

Ltac conform_steps :=
  repeat first
    [ eapply conforms_catalog
    | eapply conforms_internal
    | eapply conforms_settings_mode
    | eapply conforms_settings_hosts
    | eapply conforms_when
    | eapply conforms_index0; intros ?
    | eapply conforms_index_name
    | eapply conforms_bind ].

(** ** Further properties of the procedures *)

(** X1.  A completed cluster-wide database upgrade has exactly this log:
    stop agent on every database host, pull configuration on the
    configuration host, apply configuration on every database host, then
    the maintenance sub-sequence host by host in group order (the five steps
    of one host before the first step of the next), then start agent on
    every database host. *)
Theorem db_upgrade_rolling (X : Collaborators) (e : Env) :
  completed (run (Db.upgrade X) e) = true ->
  let D := cluster_hosts_db X in
  let P := cluster_hosts_puppet X in
  trace (Db.upgrade X) e =
    ECredential (prompted e)
    :: (EExecute D true (Catalog (puppet_stop true))
        :: map (fun h => ECall (Some h) (puppet_stop true) true) D)
    ++ [ EExecute [P] true (Catalog puppet_git_update);
         ECall (Some P) puppet_git_update true ]
    ++ (EExecute D true (Catalog (puppet_run false))
        :: map (fun h => ECall (Some h) (puppet_run false) true) D)
    ++ (EExecute D false UpgradeHostInternal
        :: List.concat
             (map (fun h =>
                     [ ECall (Some h) db_drain true;
                       ECall (Some h) db_stop true;
                       ECall (Some h) db_start true;
                       ECall (Some h) db_wait_until_ready true;
                       ECall (Some h) db_upgradesstables true ]) D))
    ++ (EExecute D true (Catalog puppet_start)
        :: map (fun h => ECall (Some h) puppet_start true) D).
Proof.
  intros Hc D P. unfold trace.
  rewrite (procedure_done (db_upgrade_runs X e) Hc).
  assert (G : forall op hs,
            group_ok_calls hs [op] =
            map (fun h => ECall (Some h) op true) hs).
  { intros op hs. unfold group_ok_calls.
    induction hs as [|h hs IH]; cbn; [reflexivity | f_equal; exact IH]. }
  unfold db_upgrade_plan. fold D P. cbn -[group_ok_calls].
  rewrite !G, app_nil_r. reflexivity.
Qed.

Lemma db_upgrade_rolling_sample :
  calls (trace (Db.upgrade sample_cluster) fresh_env) =
  map (fun h => ECall (Some h) (puppet_stop true) true)
      ["db-1"; "db-2"; "db-3"]
  ++ [ECall (Some "puppet") puppet_git_update true]
  ++ map (fun h => ECall (Some h) (puppet_run false) true)
         ["db-1"; "db-2"; "db-3"]
  ++ map (fun op => ECall (Some "db-1") op true) maintenance_ops
  ++ map (fun op => ECall (Some "db-2") op true) maintenance_ops
  ++ map (fun op => ECall (Some "db-3") op true) maintenance_ops
  ++ map (fun h => ECall (Some h) puppet_start true)
         ["db-1"; "db-2"; "db-3"].
Proof.
  rewrite (db_upgrade_rolling sample_cluster fresh_env eq_refl).
  reflexivity.
Defined.

(** X2.  Whatever the outcome of a run of any of the four procedures, the
    settings it overrides do not leak: [env.hosts], [env.parallel],
    [env.host_string] and [env.search_index_name] are afterwards what they
    were before; only the secret may have been cached. *)
Theorem settings_never_leak
  (X : Collaborators) (e : Env) (di ri un : option bool)
  (reboot : option Host) :
  let kept (m : M unit) :=
    let e' := env (world_of (run m e)) in
    env_hosts e' = env_hosts e /\
    env_parallel e' = env_parallel e /\
    env_host_string e' = env_host_string e /\
    env_search_index_name e' = env_search_index_name e /\
    env_password e' = match env_password e with
                      | Some s => Some s
                      | None => operator_secret X
                      end in
  kept (Db.upgrade X) /\
  kept (Db.upgrade_host X) /\
  kept (Search.upgrade X di ri un) /\
  kept (Search.upgrade_host X di ri un reboot).
Proof.
  intros kept.
  assert (H : forall body plan,
            conforms X (credential_env X e) body plan ->
            kept (ensure_sudo_pass X ;; body)).
  { intros body plan Hb. unfold kept. cbv zeta. rewrite (run_env Hb).
    unfold credential_available, credential_env.
    destruct (env_password e) eqn:Hp; [|destruct (operator_secret X) eqn:Hs];
      cbn; rewrite ?Hp; auto. }
  split; [|split; [|split]].
  - unfold Db.upgrade. eapply H. conform_steps.
  - unfold Db.upgrade_host. eapply H. conform_steps.
  - unfold Search.upgrade. eapply H. conform_steps.
  - unfold Search.upgrade_host. eapply H. conform_steps.
Qed.

(** X3.  The single-host
    database upgrade dispatches every phase, the maintenance sub-sequence
    included, to the ambient [env.hosts] in the ambient [env.parallel] mode:
    unlike the cluster-wide upgrade it does not force the maintenance phase
    to serial mode, so under [env.parallel = True] a completed run has
    dispatched the maintenance sub-sequence in parallel mode. *)
Theorem db_upgrade_host_ambient_mode (X : Collaborators) (e : Env) :
  let hs := env_hosts e in
  let par := env_parallel e in
  let m := Db.upgrade_host X in
  (forall hs' par' t, In (EExecute hs' par' t) (trace m e) ->
                      hs' = hs /\ par' = par) /\
  (completed (run m e) = true ->
   dispatched (trace m e) =
     [ EExecute hs par (Catalog (puppet_stop true));
       EExecute hs par (Catalog (puppet_run false));
       EExecute hs par UpgradeHostInternal;
       EExecute hs par (Catalog puppet_start) ]) /\
  (completed (run m e) = true -> par = true ->
   In (EExecute hs true UpgradeHostInternal) (trace m e)).
Proof.
  intros hs par m. pose proof (db_upgrade_host_runs X e) as Hruns.
  fold m in Hruns.
  assert (Hdone : completed (run m e) = true ->
                  dispatched (trace m e) =
                    [ EExecute hs par (Catalog (puppet_stop true));
                      EExecute hs par (Catalog (puppet_run false));
                      EExecute hs par UpgradeHostInternal;
                      EExecute hs par (Catalog puppet_start) ]).
  { intros Hc. destruct (procedure_dispatched Hruns) as (rest & Hd & Hn).
    rewrite (Hn Hc), app_nil_r in Hd. now symmetry. }
  split; [|split].
  - intros hs' par' t H.
    pose proof (procedure_events Hruns _ H) as Hev. planned Hev.
    + discriminate.
    + injection Heq as -> -> ->. in_plan Hin; auto.
    + discriminate.
  - exact Hdone.
  - intros Hc Hpar.
    assert (Hin : In (EExecute hs par UpgradeHostInternal)
                     (dispatched (trace m e))).
    { rewrite (Hdone Hc). cbn. auto. }
    rewrite Hpar in Hin. unfold dispatched in Hin.
    now apply filter_In in Hin.
Qed.

Lemma db_upgrade_host_ambient_mode_sample :
  In (EExecute ["db-1"; "db-2"] true UpgradeHostInternal)
     (trace (Db.upgrade_host sample_cluster) parallel_pair_env).
Proof.
  apply (db_upgrade_host_ambient_mode sample_cluster parallel_pair_env);
    reflexivity.
Defined.

(** X4.  With uninstall false neither search upgrade ever dispatches or
    calls the package uninstall, and the cluster-wide one no package update
    either; the single-host upgrade never runs a package update, whatever
    its options.  With uninstall true the cluster-wide upgrade dispatches
    uninstall at most once (once when it completes), before any package
    update and any stop of the search service, and the package update at
    most once (once when it completes), before any stop of the service; the
    single-host upgrade dispatches uninstall at most once (once when it
    completes), before any stop of the service. *)
Theorem uninstall_gated
  (X : Collaborators) (e : Env) (di ri un : option bool)
  (reboot : option Host) :
  let uninstall := about is_uninstall_op in
  let update := about is_package_update_op in
  let stop := about is_service_stop_op in
  let before (p q : Event -> bool) (m : M unit) :=
    List.length (filter p (dispatched (trace m e))) <= 1 /\
    (completed (run m e) = true ->
     List.length (filter p (dispatched (trace m e))) = 1) /\
    (forall l1 ev l2,
       dispatched (trace m e) = l1 ++ ev :: l2 -> q ev = true ->
       existsb p l1 = true) in
  (forall ev, In ev (trace (Search.upgrade X di ri (Some false)) e) ->
              uninstall ev = false /\ update ev = false) /\
  (forall ev,
     In ev (trace (Search.upgrade_host X di ri (Some false) reboot) e) ->
     uninstall ev = false) /\
  (forall ev, In ev (trace (Search.upgrade_host X di ri un reboot) e) ->
              update ev = false) /\
  before uninstall (fun ev => update ev || stop ev)
         (Search.upgrade X di ri (Some true)) /\
  before update stop (Search.upgrade X di ri (Some true)) /\
  before uninstall stop (Search.upgrade_host X di ri (Some true) reboot).
Proof.
  intros uninstall update stop before.
  split; [|split; [|split; [|split; [|split]]]].
  - intros ev H.
    pose proof (procedure_events
                  (search_upgrade_runs X e di ri (Some false)) ev H) as Hev.
    revert Hev. unfold search_upgrade_plan, on_first.
    destruct di as [[|]|], ri as [[|]|];
      destruct (cluster_hosts_app X), (cluster_hosts_search X);
      intros Hev; planned Hev; subst ev; try (now split);
      in_plan Hin; try in_plan Hop; now split.
  - intros ev H.
    pose proof (procedure_events
                  (search_upgrade_host_runs X e di ri (Some false) reboot)
                  ev H) as Hev.
    revert Hev. unfold search_upgrade_host_plan.
    destruct di as [[|]|], ri as [[|]|];
      intros Hev; planned Hev; subst ev; try reflexivity;
      in_plan Hin; try in_plan Hop; reflexivity.
  - intros ev H.
    pose proof (procedure_events
                  (search_upgrade_host_runs X e di ri un reboot) ev H)
      as Hev.
    revert Hev. unfold search_upgrade_host_plan.
    destruct di as [[|]|], ri as [[|]|], un as [[|]|];
      intros Hev; planned Hev; subst ev; try reflexivity;
      in_plan Hin; try in_plan Hop; reflexivity.
  - apply (procedure_gated (search_upgrade_runs X e di ri (Some true)));
      unfold search_upgrade_plan, on_first;
      destruct di as [[|]|], ri as [[|]|];
      destruct (cluster_hosts_app X), (cluster_hosts_search X);
      cbn; solve [reflexivity | lia | discriminate].
  - apply (procedure_gated (search_upgrade_runs X e di ri (Some true)));
      unfold search_upgrade_plan, on_first;
      destruct di as [[|]|], ri as [[|]|];
      destruct (cluster_hosts_app X), (cluster_hosts_search X);
      cbn; solve [reflexivity | lia | discriminate].
  - apply (procedure_gated
             (search_upgrade_host_runs X e di ri (Some true) reboot));
      destruct di as [[|]|], ri as [[|]|];
      cbn; solve [reflexivity | lia | discriminate].
Qed.

Lemma uninstall_gated_sample :
  List.length
    (filter (about is_package_update_op)
       (dispatched
          (trace (Search.upgrade sample_cluster None None (Some true))
                 fresh_env))) = 1.
Proof.
  apply (uninstall_gated sample_cluster fresh_env None None None None).
  reflexivity.
Defined.

(** X5.  With rebuild-index false neither search upgrade has any event
    about the application service.  With rebuild-index true every such
    event of the single-host upgrade is a dispatch to, or a call on, the one
    host [hilary_reboot_host] (["pp0"] when not given) and never the
    ambient hosts; every such event of the cluster-wide upgrade is on the
    first host of the application group.  In both, the application service
    is dispatched stop, start, wait-until-ready in this order, and only
    after the start of the search service was dispatched. *)
Theorem rebuild_bounces_one_host
  (X : Collaborators) (e : Env) (di un : option bool)
  (reboot : option Host) :
  let app := about is_app_node_op in
  let target := match reboot with
                | Some host => host
                | None => "pp0"
                end in
  let only_on (host : Host) (ev : Event) :=
    match ev with
    | EExecute hs _ _ => hs = [host]
    | ECall h _ _ => h = Some host
    | ECredential _ => False
    end in
  let in_order (m : M unit) :=
    (exists rest,
       [Some hilary_stop; Some hilary_start; Some hilary_wait_until_ready] =
       map event_op (filter app (dispatched (trace m e))) ++ rest) /\
    (forall l1 ev l2,
       dispatched (trace m e) = l1 ++ ev :: l2 -> app ev = true ->
       existsb (about is_service_start_op) l1 = true) in
  (forall ev, In ev (trace (Search.upgrade X di (Some false) un) e) ->
              app ev = false) /\
  (forall ev,
     In ev (trace (Search.upgrade_host X di (Some false) un reboot) e) ->
     app ev = false) /\
  (forall ev,
     In ev (trace (Search.upgrade_host X di (Some true) un reboot) e) ->
     app ev = true -> only_on target ev) /\
  (forall ev,
     In ev (trace (Search.upgrade X di (Some true) un) e) ->
     app ev = true ->
     exists first others,
       cluster_hosts_app X = first :: others /\ only_on first ev) /\
  in_order (Search.upgrade X di (Some true) un) /\
  in_order (Search.upgrade_host X di (Some true) un reboot).
Proof.
  intros app target only_on in_order.
  assert (Hord : forall plan m,
            procedure_runs X e plan (run m e) ->
            guarded (about is_service_start_op) app (plan_dispatches plan)
              = true ->
            (exists rest,
               [Some hilary_stop; Some hilary_start;
                Some hilary_wait_until_ready] =
               map event_op (filter app (plan_dispatches plan)) ++ rest) ->
            in_order m).
  { intros plan m Hruns Hg (rest0 & Hthree).
    destruct (procedure_dispatched Hruns) as (rest & Hd & _).
    rewrite Hd in Hg, Hthree. split.
    - rewrite filter_app, map_app, <- app_assoc in Hthree. eauto.
    - apply guarded_sound. eapply guarded_prefix, Hg. }
  split; [|split; [|split; [|split; [|split]]]].
  - intros ev H.
    pose proof (procedure_events
                  (search_upgrade_runs X e di (Some false) un) ev H) as Hev.
    revert Hev. unfold search_upgrade_plan, on_first.
    destruct di as [[|]|], un as [[|]|];
      destruct (cluster_hosts_search X);
      intros Hev; planned Hev; subst ev; try reflexivity;
      in_plan Hin; try in_plan Hop; reflexivity.
  - intros ev H.
    pose proof (procedure_events
                  (search_upgrade_host_runs X e di (Some false) un reboot)
                  ev H) as Hev.
    revert Hev. unfold search_upgrade_host_plan.
    destruct di as [[|]|], un as [[|]|];
      intros Hev; planned Hev; subst ev; try reflexivity;
      in_plan Hin; try in_plan Hop; reflexivity.
  - intros ev H Happ.
    pose proof (procedure_events
                  (search_upgrade_host_runs X e di (Some true) un reboot)
                  ev H) as Hev.
    revert Hev. unfold search_upgrade_host_plan.
    destruct di as [[|]|], un as [[|]|], reboot as [host|];
      intros Hev; planned Hev; subst ev; try discriminate;
      in_plan Hin; try in_plan Hop; try discriminate;
      try reflexivity; in_plan Hh; reflexivity.
  - intros ev H Happ.
    pose proof (procedure_events
                  (search_upgrade_runs X e di (Some true) un) ev H) as Hev.
    revert Hev. unfold search_upgrade_plan, on_first.
    destruct (cluster_hosts_app X) as [|first others];
      destruct di as [[|]|], un as [[|]|];
      destruct (cluster_hosts_search X);
      intros Hev; planned Hev; subst ev; try discriminate;
      in_plan Hin; try in_plan Hop; try discriminate;
      exists first, others; (split; [reflexivity|]);
      try reflexivity; in_plan Hh; reflexivity.
  - apply (Hord _ _ (search_upgrade_runs X e di (Some true) un));
      unfold search_upgrade_plan, on_first;
      destruct di as [[|]|], un as [[|]|];
      destruct (cluster_hosts_app X), (cluster_hosts_search X);
      cbn; try reflexivity; eexists; reflexivity.
  - apply (Hord _ _ (search_upgrade_host_runs X e di (Some true) un reboot));
      destruct di as [[|]|], un as [[|]|];
      cbn; try reflexivity; eexists; reflexivity.
Qed.

Lemma rebuild_bounces_one_host_sample :
  let ev := EExecute ["pp0"] false (Catalog hilary_stop) in
  In ev (trace (Search.upgrade_host sample_cluster None (Some true) None None)
               (env_for "search-1")) /\
  match ev with
  | EExecute hs _ _ => hs = ["pp0"]
  | _ => False
  end.
Proof.
  assert (H : In (EExecute ["pp0"] false (Catalog hilary_stop))
                (trace (Search.upgrade_host sample_cluster None (Some true)
                                            None None)
                       (env_for "search-1"))).
  { vm_compute. tauto. }
  split; [exact H|].
  exact (proj1 (proj2 (proj2 (rebuild_bounces_one_host
                                sample_cluster (env_for "search-1")
                                None None None)))
           _ H eq_refl).
Defined.

(** X6.  In every run of each of the four procedures the first phase
    dispatched is stop agent with [force=True], a start-agent dispatch is
    the last dispatch of the run, every stop-agent event carries
    [force=True] and every apply-configuration event [force=False].  So a
    run aborted in any phase before the last has never dispatched start
    agent. *)
Theorem agent_stopped_first_started_last
  (X : Collaborators) (e : Env) (di ri un : option bool)
  (reboot : option Host) :
  let bracket (m : M unit) :=
    (forall ev l, dispatched (trace m e) = ev :: l ->
                  exists hs par,
                    ev = EExecute hs par (Catalog (puppet_stop true))) /\
    (forall l1 ev l2,
       dispatched (trace m e) = l1 ++ ev :: l2 ->
       about is_agent_start_op ev = true -> l2 = []) /\
    (forall ev op, In ev (trace m e) -> event_op ev = Some op ->
                   agent_flags_ok op = true) in
  bracket (Db.upgrade X) /\
  bracket (Db.upgrade_host X) /\
  bracket (Search.upgrade X di ri un) /\
  bracket (Search.upgrade_host X di ri un reboot).
Proof.
  intros bracket.
  assert (H : forall plan m,
            procedure_runs X e plan (run m e) ->
            (exists hs par tl,
               plan_dispatches plan =
               EExecute hs par (Catalog (puppet_stop true)) :: tl) ->
            only_last (about is_agent_start_op) (plan_dispatches plan)
              = true ->
            (forall hs par t, In (Dispatch hs par t) plan ->
                              forall op, In op (task_ops t) ->
                                         agent_flags_ok op = true) ->
            bracket m).
  { intros plan m Hruns (hs & par & tl & Hfirst) Hlast Hflags.
    destruct (procedure_dispatched Hruns) as (rest & Hd & _).
    split; [|split].
    - intros ev l Hl. fold (trace m e) in Hd. rewrite Hl, Hfirst in Hd.
      injection Hd as <- _. eauto.
    - intros l1 ev l2 Hl Hp. rewrite Hd in Hlast.
      now destruct (@only_last_prefix _ _ _ _ _ _ Hlast Hl Hp).
    - intros ev op Hin Hop.
      pose proof (procedure_events Hruns ev Hin) as Hev. planned Hev;
        subst ev; cbn in Hop.
      + discriminate.
      + match type of Hop with
        | context [match ?task with Catalog _ => _ | _ => _ end] =>
            destruct task as [op'|]; [|discriminate]
        end.
        injection Hop as ->.
        eapply Hflags; [eassumption | now left].
      + injection Hop as ->. eapply Hflags; eassumption. }
  split; [|split; [|split]].
  - apply (H _ _ (db_upgrade_runs X e)); [cbn; eauto | reflexivity |].
    intros hs par t Hin op Hop. in_plan Hin; in_plan Hop; reflexivity.
  - apply (H _ _ (db_upgrade_host_runs X e)); [cbn; eauto | reflexivity |].
    intros hs par t Hin op Hop. in_plan Hin; in_plan Hop; reflexivity.
  - apply (H _ _ (search_upgrade_runs X e di ri un));
      unfold search_upgrade_plan, on_first;
      destruct di as [[|]|], ri as [[|]|], un as [[|]|];
      destruct (cluster_hosts_app X), (cluster_hosts_search X);
      cbn; eauto;
      intros hs par t Hin op Hop; in_plan Hin; in_plan Hop; reflexivity.
  - apply (H _ _ (search_upgrade_host_runs X e di ri un reboot));
      unfold search_upgrade_host_plan;
      destruct di as [[|]|], ri as [[|]|], un as [[|]|];
      cbn; eauto;
      intros hs par t Hin op Hop; in_plan Hin; in_plan Hop; reflexivity.
Qed.

Lemma agent_stopped_first_started_last_sample :
  skipn 5 (dispatched (trace (Db.upgrade sample_cluster) fresh_env)) = [].
Proof.
  apply (proj1 (proj2 (proj1 (agent_stopped_first_started_last
                                sample_cluster fresh_env
                                None None None None)))
           (firstn 4 (dispatched (trace (Db.upgrade sample_cluster)
                                        fresh_env)))
           (EExecute ["db-1"; "db-2"; "db-3"] true (Catalog puppet_start))).
  - reflexivity.
  - reflexivity.
Defined.

Section Barrier.

Variable X : Collaborators.
Variable e : Env.
Variable r : Result unit.

(** Of two phases that follow each other in a plan, the second is dispatched
    only after the first succeeded on every host of its group. *)
Lemma procedure_after p0 hs0 par0 t0 hs par t p2 :
  procedure_runs X e (p0 ++ Dispatch hs0 par0 t0 :: Dispatch hs par t :: p2)
                 r ->
  In (EExecute hs par t) (log (world_of r)) ->
  ~ In (Dispatch hs par t) p0 ->
  Dispatch hs par t <> Dispatch hs0 par0 t0 ->
  exists l1 l2,
    log (world_of r) =
      l1 ++ (EExecute hs0 par0 t0 :: group_ok_calls hs0 (task_ops t0))
         ++ EExecute hs par t :: l2.
Proof.
  intros Hruns Hin Hnot Hne. unfold procedure_runs in Hruns.
  destruct (credential_available X e).
  2: { rewrite Hruns in Hin. cbn in Hin. now destruct Hin. }
  destruct Hruns as (l & Hl & Hr). rewrite Hl in Hin |- *.
  destruct Hin as [Hin | Hin]; [discriminate|].
  change (p0 ++ Dispatch hs0 par0 t0 :: Dispatch hs par t :: p2)
    with (p0 ++ [Dispatch hs0 par0 t0] ++ Dispatch hs par t :: p2) in Hr.
  rewrite app_assoc in Hr.
  destruct (runs_plan_reached _ _ _ _ _ Hr Hin) as (Hrz & l2 & ->).
  { intros H. apply in_app_or in H as [H | [H | []]]; auto. }
  rewrite raising_app in Hrz. apply orb_false_elim in Hrz as [Hrz _].
  rewrite (expand_app p0 [Dispatch hs0 par0 t0] Hrz). cbn [expand].
  rewrite app_nil_r.
  exists (ECredential (prompted e) :: expand p0), l2.
  cbn. now rewrite <- !app_assoc.
Qed.

End Barrier.

Arguments procedure_after {X e r} p0 hs0 par0 t0 hs par t p2 _ _ _ _.

(** X7.  In the cluster-wide search upgrade, whatever the options, apply
    configuration is dispatched only after the search service was stopped
    successfully on every host of the search group (the whole cluster is
    down first), and the service is started only after configuration was
    applied successfully on every host. *)
Theorem search_cluster_down_before_configuration
  (X : Collaborators) (e : Env) (di ri un : option bool) :
  let S := cluster_hosts_search X in
  let m := Search.upgrade X di ri un in
  let stop_all :=
    EExecute S true (Catalog search_stop)
    :: map (fun h => ECall (Some h) search_stop true) S in
  let configure_all :=
    EExecute S true (Catalog (puppet_run false))
    :: map (fun h => ECall (Some h) (puppet_run false) true) S in
  (In (EExecute S true (Catalog (puppet_run false))) (trace m e) ->
   exists l1 l2,
     trace m e =
       l1 ++ stop_all ++ EExecute S true (Catalog (puppet_run false)) :: l2)
  /\
  (In (EExecute S true (Catalog search_start)) (trace m e) ->
   exists l1 l2,
     trace m e =
       l1 ++ configure_all ++ EExecute S true (Catalog search_start) :: l2).
Proof.
  intros S m stop_all configure_all.
  assert (G : forall op hs,
            group_ok_calls hs [op] =
            map (fun h => ECall (Some h) op true) hs).
  { intros op hs. unfold group_ok_calls.
    induction hs as [|h hs IH]; cbn; [reflexivity | f_equal; exact IH]. }
  pose proof (search_upgrade_runs X e di ri un) as Hruns. fold m in Hruns.
  unfold search_upgrade_plan in Hruns. fold S in Hruns.
  set (p0 := [Dispatch S true (Catalog (puppet_stop true));
              Dispatch [cluster_hosts_puppet X] true
                       (Catalog puppet_git_update)]
             ++ (if kwarg false di
                 then on_first S (fun first =>
                        [Dispatch [first] (env_parallel e)
                           (Catalog (search_delete_index (index_name_of e)))])
                 else [])
             ++ (if kwarg true un
                 then [Dispatch S true (Catalog search_uninstall);
                       Dispatch S true (Catalog apt_update)]
                 else [])).
  assert (Hp0 : forall hs par t,
            In (Dispatch hs par t) p0 ->
            t <> Catalog (puppet_run false) /\ t <> Catalog search_start /\
            t <> Catalog search_stop).
  { intros hs par t H. unfold p0, on_first in H.
    destruct (kwarg false di), (kwarg true un), S;
      in_plan H; repeat split; discriminate. }
  split; intros Hin.
  - unfold trace in *. unfold stop_all. rewrite <- G.
    apply (procedure_after (X:=X) (e:=e) (r:=run m e) p0 S true (Catalog search_stop)
             S true (Catalog (puppet_run false))
             ([Dispatch S true (Catalog search_start)]
              ++ (if kwarg false ri
                  then on_first (cluster_hosts_app X) (fun first =>
                         [Dispatch [first] (env_parallel e)
                            (Catalog hilary_stop);
                          Dispatch [first] (env_parallel e)
                            (Catalog hilary_start);
                          Dispatch [first] (env_parallel e)
                            (Catalog hilary_wait_until_ready)])
                  else [])
              ++ [Dispatch S true (Catalog puppet_start)])).
    + unfold p0. rewrite <- !app_assoc. exact Hruns.
    + exact Hin.
    + intros H. now apply Hp0 in H as (H & _).
    + discriminate.
  - unfold trace in *. unfold configure_all. rewrite <- G.
    apply (procedure_after (X:=X) (e:=e) (r:=run m e) (p0 ++ [Dispatch S true (Catalog search_stop)])
             S true (Catalog (puppet_run false))
             S true (Catalog search_start)
             ((if kwarg false ri
               then on_first (cluster_hosts_app X) (fun first =>
                      [Dispatch [first] (env_parallel e)
                         (Catalog hilary_stop);
                       Dispatch [first] (env_parallel e)
                         (Catalog hilary_start);
                       Dispatch [first] (env_parallel e)
                         (Catalog hilary_wait_until_ready)])
               else [])
              ++ [Dispatch S true (Catalog puppet_start)])).
    + unfold p0. rewrite <- !app_assoc. exact Hruns.
    + exact Hin.
    + intros H. apply in_app_or in H as [H | [H | []]].
      * now apply Hp0 in H as (_ & H & _).
      * discriminate.
    + discriminate.
Qed.

Lemma search_cluster_down_before_configuration_sample :
  exists l1 l2,
    trace (Search.upgrade sample_cluster None None None) fresh_env =
    l1 ++ (EExecute ["search-1"; "search-2"; "search-3"] true
                    (Catalog search_stop)
           :: map (fun h => ECall (Some h) search_stop true)
                  ["search-1"; "search-2"; "search-3"])
       ++ EExecute ["search-1"; "search-2"; "search-3"] true
                   (Catalog (puppet_run false)) :: l2.
Proof.
  apply (search_cluster_down_before_configuration
           sample_cluster fresh_env None None None).
  vm_compute. tauto.
Defined.

(** X8.  In the cluster-wide database upgrade the maintenance phase is
    dispatched only after configuration was applied successfully on every
    database host, and start agent only after every database host went
    through its five maintenance steps, host after host. *)
Theorem db_maintenance_after_configuration (X : Collaborators) (e : Env) :
  let D := cluster_hosts_db X in
  let m := Db.upgrade X in
  let configure_all :=
    EExecute D true (Catalog (puppet_run false))
    :: map (fun h => ECall (Some h) (puppet_run false) true) D in
  let maintain_all :=
    EExecute D false UpgradeHostInternal
    :: List.concat
         (map (fun h =>
                 [ ECall (Some h) db_drain true;
                   ECall (Some h) db_stop true;
                   ECall (Some h) db_start true;
                   ECall (Some h) db_wait_until_ready true;
                   ECall (Some h) db_upgradesstables true ]) D) in
  (In (EExecute D false UpgradeHostInternal) (trace m e) ->
   exists l1 l2,
     trace m e =
       l1 ++ configure_all ++ EExecute D false UpgradeHostInternal :: l2) /\
  (In (EExecute D true (Catalog puppet_start)) (trace m e) ->
   exists l1 l2,
     trace m e =
       l1 ++ maintain_all ++ EExecute D true (Catalog puppet_start) :: l2).
Proof.
  intros D m configure_all maintain_all.
  assert (G : forall op hs,
            group_ok_calls hs [op] =
            map (fun h => ECall (Some h) op true) hs).
  { intros op hs. unfold group_ok_calls.
    induction hs as [|h hs IH]; cbn; [reflexivity | f_equal; exact IH]. }
  pose proof (db_upgrade_runs X e) as Hruns. fold m in Hruns.
  unfold db_upgrade_plan in Hruns. fold D in Hruns.
  split; intros Hin; unfold trace in *.
  - unfold configure_all. rewrite <- G.
    apply (procedure_after (X:=X) (e:=e) (r:=run m e)
             [Dispatch D true (Catalog (puppet_stop true));
              Dispatch [cluster_hosts_puppet X] true
                       (Catalog puppet_git_update)]
             D true (Catalog (puppet_run false))
             D false UpgradeHostInternal
             [Dispatch D true (Catalog puppet_start)]).
    + exact Hruns.
    + exact Hin.
    + intros H. in_plan H.
    + discriminate.
  - apply (procedure_after (X:=X) (e:=e) (r:=run m e)
             [Dispatch D true (Catalog (puppet_stop true));
              Dispatch [cluster_hosts_puppet X] true
                       (Catalog puppet_git_update);
              Dispatch D true (Catalog (puppet_run false))]
             D false UpgradeHostInternal
             D true (Catalog puppet_start) []).
    + exact Hruns.
    + exact Hin.
    + intros H. in_plan H.
    + discriminate.
Qed.

Lemma db_maintenance_after_configuration_sample :
  exists l1 l2,
    trace (Db.upgrade sample_cluster) fresh_env =
    l1 ++ (EExecute ["db-1"; "db-2"; "db-3"] true
                    (Catalog (puppet_run false))
           :: map (fun h => ECall (Some h) (puppet_run false) true)
                  ["db-1"; "db-2"; "db-3"])
       ++ EExecute ["db-1"; "db-2"; "db-3"] false UpgradeHostInternal :: l2.
Proof.
  apply (db_maintenance_after_configuration sample_cluster fresh_env).
  vm_compute. tauto.
Defined.

Section CutFacts.

Variable X : Collaborators.
Variable e : Env.
Variable r : Result unit.

Lemma procedure_cut p1 p2 :
  procedure_runs X e (p1 ++ RaiseIndexError :: p2) r ->
  procedure_runs X e (p1 ++ [RaiseIndexError]) r.
Proof.
  unfold procedure_runs. destruct (credential_available X e); [|trivial].
  intros (l & Hl & Hr). exists l. split; [exact Hl|].
  now apply runs_plan_cut in Hr.
Qed.

Lemma dispatched_expand plan : dispatched (expand plan) = plan_dispatches plan.
Proof.
  induction plan as [|[hs par t|] plan IH]; cbn; [reflexivity| |reflexivity].
  fold (dispatched (group_ok_calls hs (task_ops t) ++ expand plan)).
  now rewrite dispatched_app, dispatched_group_ok_calls, IH.
Qed.

(** A failed run ends in the phase that failed; nothing is dispatched after
    it. *)
Lemma procedure_failstop plan err :
  procedure_runs X e plan r ->
  failure_of r = Some err ->
  (err = CredentialError /\ log (world_of r) = [ECredential true]) \/
  err = IndexError \/
  exists l hs par t cs,
    log (world_of r) = l ++ EExecute hs par t :: cs /\
    In (Dispatch hs par t) plan /\
    phase_aborts X hs par t cs err.
Proof.
  unfold procedure_runs. intros Hruns Hf.
  destruct (credential_available X e).
  - destruct Hruns as (l & Hl & Hr). rewrite Hf in Hr.
    destruct (runs_plan_failstop Hr)
      as [-> | (l1 & hs & par & t & cs & -> & Hin & Hab)].
    + right. now left.
    + right. right.
      exists (ECredential (prompted e) :: l1), hs, par, t, cs.
      split; [exact Hl|]. now split.
  - rewrite Hruns in Hf |- *. cbn in *. injection Hf as <-. now left.
Qed.

End CutFacts.

Arguments procedure_cut {X e r} p1 p2 _.
Arguments procedure_failstop {X e r plan err} _ _.

(** X9.  With rebuild-index true and an application group that resolves to
    no host, the cluster-wide search upgrade never completes and never has
    an event about the application service or about starting the agent:
    selecting the first application host raises before the bounce, and the
    agents stay stopped.  When the credential is available and no leaf
    operation fails, the run ends with an index error: right after the start
    of the search service was dispatched, or, when index deletion is asked
    for and the search group is empty too, already at the selection of the
    first search host, after stop agent and pull configuration. *)
Theorem rebuild_without_app_host
  (X : Collaborators) (e : Env) (di un : option bool) :
  cluster_hosts_app X = [] ->
  let S := cluster_hosts_search X in
  let m := Search.upgrade X di (Some true) un in
  completed (run m e) = false /\
  (forall ev, In ev (trace m e) ->
              about is_app_node_op ev = false /\
              about is_agent_start_op ev = false) /\
  (credential_available X e = true -> reliable X ->
   failure_of (run m e) = Some IndexError /\
   ((di = Some true -> S <> []) ->
    exists l,
      dispatched (trace m e) =
      l ++ [EExecute S true (Catalog search_start)]) /\
   (di = Some true -> S = [] ->
    dispatched (trace m e) =
      [ EExecute [] true (Catalog (puppet_stop true));
        EExecute [cluster_hosts_puppet X] true
                 (Catalog puppet_git_update) ])).
Proof.
  intros HA S m.
  pose proof (search_upgrade_runs X e di (Some true) un) as Hruns.
  fold m in Hruns. unfold search_upgrade_plan, on_first in Hruns.
  rewrite HA in Hruns. fold S in Hruns. cbn [kwarg] in Hruns.
  set (p1 := [Dispatch S true (Catalog (puppet_stop true));
              Dispatch [cluster_hosts_puppet X] true
                       (Catalog puppet_git_update)]
             ++ (if kwarg false di
                 then match S with
                      | [] => [RaiseIndexError]
                      | first :: _ =>
                          [Dispatch [first] (env_parallel e)
                             (Catalog (search_delete_index
                                         (index_name_of e)))]
                      end
                 else [])
             ++ (if kwarg true un
                 then [Dispatch S true (Catalog search_uninstall);
                       Dispatch S true (Catalog apt_update)]
                 else [])
             ++ [Dispatch S true (Catalog search_stop)]
             ++ [Dispatch S true (Catalog (puppet_run false));
                 Dispatch S true (Catalog search_start)]).
  assert (Hplan : procedure_runs X e
             (p1 ++ RaiseIndexError
                 :: [Dispatch S true (Catalog puppet_start)]) (run m e)).
  { unfold p1. rewrite <- !app_assoc. exact Hruns. }
  split; [|split].
  - destruct (completed (run m e)) eqn:Hc; [|reflexivity].
    pose proof (procedure_total Hplan Hc) as Ht.
    rewrite raising_app in Ht. cbn in Ht.
    rewrite orb_true_r in Ht. discriminate.
  - intros ev H.
    pose proof (procedure_events (procedure_cut _ _ Hplan) ev H) as Hev.
    revert Hev. unfold p1.
    destruct (kwarg false di), (kwarg true un), S;
      intros Hev; planned Hev; subst ev; try (now split);
      in_plan Hin; try in_plan Hop; now split.
  - intros Hcred Hrel.
    destruct (procedure_reliable Hplan Hcred Hrel) as [Hl Hf].
    rewrite raising_app in Hf. cbn in Hf. rewrite orb_true_r in Hf.
    split; [exact Hf|].
    unfold trace. rewrite Hl.
    change (dispatched (ECredential (prompted e) :: ?l))
      with (dispatched l).
    rewrite dispatched_expand. unfold p1. split.
    2: { intros -> HSe. cbn [kwarg]. destruct S; [|discriminate].
         destruct (kwarg true un); reflexivity. }
    intros HS.
    destruct di as [[|]|], (kwarg true un); cbn [kwarg];
      try (destruct S as [|first others] eqn:HSe;
           [exfalso; now apply HS|]);
      cbn;
      match goal with
      | |- exists l, ?a :: ?b :: ?c :: ?d :: ?f :: ?g :: ?h :: [?x]
                     = l ++ [?x] =>
          exists [a; b; c; d; f; g; h]; reflexivity
      | |- exists l, ?a :: ?b :: ?c :: ?d :: ?f :: ?g :: [?x]
                     = l ++ [?x] =>
          exists [a; b; c; d; f; g]; reflexivity
      | |- exists l, ?a :: ?b :: ?c :: ?d :: ?f :: [?x] = l ++ [?x] =>
          exists [a; b; c; d; f]; reflexivity
      | |- exists l, ?a :: ?b :: ?c :: ?d :: [?x] = l ++ [?x] =>
          exists [a; b; c; d]; reflexivity
      | |- exists l, ?a :: ?b :: ?c :: [?x] = l ++ [?x] =>
          exists [a; b; c]; reflexivity
      end.
Qed.

Lemma rebuild_without_app_host_sample :
  failure_of (run (Search.upgrade no_app_cluster None (Some true) None)
                  fresh_env) = Some IndexError.
Proof.
  apply (@rebuild_without_app_host no_app_cluster fresh_env None None
           eq_refl).
  - reflexivity.
  - intros l h op. reflexivity.
Defined.

(** X10.  None of the four procedures catches a failure or goes on after
    one.  A run that fails either could not get the credential (then the
    prompt is all that happened), or stopped at an index error, or stopped
    in the phase that failed: the log ends with that phase's dispatch and
    its calls, nothing is dispatched after it, and the failure names a host
    of that phase's group (serial mode: the host and operation of the last,
    failed call; parallel mode: the task and a non-empty list of failed
    hosts). *)
Theorem failure_ends_the_run
  (X : Collaborators) (e : Env) (di ri un : option bool)
  (reboot : option Host) :
  let fail_stop (m : M unit) :=
    forall err,
      failure_of (run m e) = Some err ->
      (err = CredentialError /\ trace m e = [ECredential true]) \/
      err = IndexError \/
      exists l hs par t cs,
        trace m e = l ++ EExecute hs par t :: cs /\
        dispatched cs = [] /\
        match err with
        | LeafFailure (Some h) op =>
            par = false /\ In h hs /\ In op (task_ops t) /\
            exists cs', cs = cs' ++ [ECall (Some h) op false]
        | ParallelFailure t' failed =>
            par = true /\ t' = t /\ failed <> [] /\ incl failed hs
        | _ => False
        end in
  fail_stop (Db.upgrade X) /\
  fail_stop (Db.upgrade_host X) /\
  fail_stop (Search.upgrade X di ri un) /\
  fail_stop (Search.upgrade_host X di ri un reboot).
Proof.
  intros fail_stop.
  assert (H : forall plan m,
            procedure_runs X e plan (run m e) -> fail_stop m).
  { intros plan m Hruns err Hf.
    destruct (procedure_failstop Hruns Hf)
      as [Hc | [Hi | (l & hs & par & t & cs & Hl & _ & Hab)]];
      [now left | right; now left | right; right].
    exists l, hs, par, t, cs. split; [exact Hl|]. split.
    - apply (on_group_filter is_dispatch (phase_aborts_on_group Hab)).
      reflexivity.
    - destruct Hab as [_ Hab]. destruct par.
      + destruct Hab as (_ & failed & -> & Hne & Hincl). auto.
      + destruct Hab
          as (done & h & rest & pre & op & post & -> & Hops & -> & ->).
        split; [reflexivity|]. split; [apply in_or_app; right; now left|].
        split; [rewrite Hops; apply in_or_app; right; now left|].
        exists (group_ok_calls done (task_ops t) ++ ok_calls (Some h) pre).
        unfold failed_calls. now rewrite app_assoc. }
  split; [|split; [|split]].
  - eapply H, db_upgrade_runs.
  - eapply H, db_upgrade_host_runs.
  - eapply H, search_upgrade_runs.
  - eapply H, search_upgrade_host_runs.
Qed.

Lemma failure_ends_the_run_sample :
  exists l hs t cs,
    trace (Db.upgrade faulty_cluster) fresh_env =
      l ++ EExecute hs false t :: cs /\
    dispatched cs = [] /\ In "db-2" hs /\ In db_stop (task_ops t).
Proof.
  destruct (proj1 (failure_ends_the_run faulty_cluster fresh_env
                     None None None None)
              (LeafFailure (Some "db-2") db_stop) eq_refl)
    as [[Hc _] | [Hi | (l & hs & par & t & cs & Hl & Hd & Hp & Hh & Ho & _)]];
    [discriminate | discriminate |].
  subst par. exists l, hs, t, cs. auto.
Defined.

(** X11.  Where index deletion goes.  In the cluster-wide search upgrade
    every dispatch of index deletion is to the first host of the search
    group alone, in the ambient [env.parallel] mode (the [settings] block
    sets no mode), and every call of it is on that host.  In the single-host
    upgrade it is dispatched to the ambient [env.hosts] in the ambient mode,
    and called on hosts of [env.hosts] only. *)
Theorem index_deletion_targets
  (X : Collaborators) (e : Env) (ri un : option bool)
  (reboot : option Host) :
  let deletion := about is_index_deletion_op in
  (forall ev,
     In ev (trace (Search.upgrade X (Some true) ri un) e) ->
     deletion ev = true ->
     exists first others,
       cluster_hosts_search X = first :: others /\
       match ev with
       | EExecute hs par _ => hs = [first] /\ par = env_parallel e
       | ECall h _ _ => h = Some first
       | ECredential _ => False
       end) /\
  (forall ev,
     In ev (trace (Search.upgrade_host X (Some true) ri un reboot) e) ->
     deletion ev = true ->
     match ev with
     | EExecute hs par _ => hs = env_hosts e /\ par = env_parallel e
     | ECall h _ _ => exists h', h = Some h' /\ In h' (env_hosts e)
     | ECredential _ => False
     end).
Proof.
  intros deletion. split.
  - intros ev H Hdel.
    pose proof (procedure_events
                  (search_upgrade_runs X e (Some true) ri un) ev H) as Hev.
    revert Hev. unfold search_upgrade_plan, on_first.
    destruct (cluster_hosts_search X) as [|first others];
      destruct ri as [[|]|], un as [[|]|];
      destruct (cluster_hosts_app X);
      intros Hev; planned Hev; subst ev; try discriminate;
      in_plan Hin; try in_plan Hop; try discriminate;
      exists first, others; (split; [reflexivity|]);
      try (now split); in_plan Hh; reflexivity.
  - intros ev H Hdel.
    pose proof (procedure_events
                  (search_upgrade_host_runs X e (Some true) ri un reboot)
                  ev H) as Hev.
    revert Hev. unfold search_upgrade_host_plan.
    destruct ri as [[|]|], un as [[|]|];
      intros Hev; planned Hev; subst ev; try discriminate;
      in_plan Hin; try in_plan Hop; try discriminate;
      try (now split); eauto.
Qed.

Lemma index_deletion_targets_sample :
  let ev := ECall (Some "search-1") (search_delete_index "oae") true in
  In ev (trace (Search.upgrade sample_cluster (Some true) None None)
               fresh_env) /\
  exists first others,
    ["search-1"; "search-2"; "search-3"] = first :: others /\
    Some "search-1" = Some first.
Proof.
  assert (H : In (ECall (Some "search-1") (search_delete_index "oae") true)
                (trace (Search.upgrade sample_cluster (Some true) None None)
                       fresh_env)).
  { vm_compute. tauto. }
  split; [exact H|].
  exact (proj1 (index_deletion_targets sample_cluster fresh_env
                  None None None) _ H eq_refl).
Defined.

(** X12.  The single-host search upgrade, run for the one host [h], touches
    [h] and, for the bounce of the application service, the host
    [hilary_reboot_host] (["pp0"] when not given), and no other: every
    dispatch and every call about the application service is on the reboot
    host, every other one on [h].  Called with no options, a completed run
    makes exactly the calls stop agent, uninstall, stop service, apply
    configuration, start service, start agent, on [h]. *)
Theorem search_host_upgrade_touches
  (X : Collaborators) (e : Env) (di ri un : option bool)
  (reboot : option Host) (h : Host) :
  env_hosts e = [h] ->
  let target := match reboot with
                | Some host => host
                | None => "pp0"
                end in
  (forall ev,
     In ev (trace (Search.upgrade_host X di ri un reboot) e) ->
     match ev with
     | ECredential _ => True
     | EExecute hs _ _ =>
         hs = [if about is_app_node_op ev then target else h]
     | ECall h' op _ =>
         h' = Some (if is_app_node_op op then target else h)
     end) /\
  (completed (run (Search.upgrade_host X None None None None) e) = true ->
   calls (trace (Search.upgrade_host X None None None None) e) =
     map (fun op => ECall (Some h) op true)
         [ puppet_stop true; search_uninstall; search_stop;
           puppet_run false; search_start; puppet_start ]).
Proof.
  intros He target. split.
  - intros ev H.
    pose proof (procedure_events
                  (search_upgrade_host_runs X e di ri un reboot) ev H)
      as Hev.
    revert Hev. unfold search_upgrade_host_plan. rewrite He.
    destruct di as [[|]|], ri as [[|]|], un as [[|]|], reboot as [host|];
      intros Hev; planned Hev; subst ev; try exact I;
      in_plan Hin; try in_plan Hop; try in_plan Hh; reflexivity.
  - intros Hc.
    pose proof (procedure_done
                  (search_upgrade_host_runs X e None None None None) Hc)
      as Hl.
    unfold trace. etransitivity; [exact (f_equal calls Hl)|].
    unfold search_upgrade_host_plan. rewrite He. reflexivity.
Qed.

Lemma search_host_upgrade_touches_sample :
  calls (trace (Search.upgrade_host sample_cluster None None None None)
               (env_for "search-1")) =
  map (fun op => ECall (Some "search-1") op true)
      [ puppet_stop true; search_uninstall; search_stop;
        puppet_run false; search_start; puppet_start ].
Proof.
  apply (@search_host_upgrade_touches sample_cluster (env_for "search-1")
           None None None None "search-1" eq_refl).
  reflexivity.
Defined.
